(** * IlmThread: class Mutex and class Lock (IlmThreadMutex.h)

    A shallow embedding of the scope-bound lock of IlmThread and of the
    mutual-exclusion primitive it wraps.

    - [Lock] is embedded from the header: its two data members, its
      constructor, destructor, [acquire], [release] and [locked], written
      in a small state-and-failure monad over the guard object and the
      environment the calling thread sees.
    - [Mutex] is only declared in the header (its [lock] and [unlock]
      bodies live elsewhere, or are those of [std::mutex]); the guard is
      therefore written against an interface, [MutexImpl], and a concrete
      instance of that interface is modelled separately.
    - The block [{ Lock lock (mtx); ... }] of the header's usage comment is
      embedded as [critical_section]. *)

From stdpp Require Import base option list gmap.

Set Default Proof Using "Type".

(** ** Threads, mutex references, primitive calls *)

(** The thread that executes a member function. *)
Abbreviation thread := nat (only parsing).

(** [Mutex &]: the address of a mutex object; two guards built on the same
    mutex hold the same reference. *)
Abbreviation mutex_ref := nat (only parsing).

(** A call made on the primitive through a guard. *)
Inductive event :=
| EvLock (m : mutex_ref)
| EvUnlock (m : mutex_ref).

Global Instance event_eq_dec : EqDecision event.
Proof. solve_decision. Defined.

Definition is_unlock_of (m : mutex_ref) (ev : event) : bool :=
  match ev with
  | EvUnlock m' => bool_decide (m' = m)
  | EvLock _ => false
  end.

Definition is_lock_of (m : mutex_ref) (ev : event) : bool :=
  match ev with
  | EvLock m' => bool_decide (m' = m)
  | EvUnlock _ => false
  end.

(** Number of [unlock] (resp. [lock]) calls on [m] in a call log. *)
Definition unlock_count (m : mutex_ref) (log : list event) : nat :=
  length (filter (λ ev, is_unlock_of m ev = true) log).

Definition lock_count (m : mutex_ref) (log : list event) : nat :=
  length (filter (λ ev, is_lock_of m ev = true) log).

(** ** The interface of the primitive *)

(** What a call of [Mutex::lock] can do: return with the store of mutexes
    updated, never return, leave by an exception, or have no defined
    behaviour. *)
Inductive lock_result (H : Type) :=
| LockOk (h : H)
| LockBlocks
| LockThrows
| LockUndefined.
Arguments LockOk {H} h.
Arguments LockBlocks {H}.
Arguments LockThrows {H}.
Arguments LockUndefined {H}.

(** What a call of [Mutex::unlock] can do: it neither waits nor throws. *)
Inductive unlock_result (H : Type) :=
| UnlockOk (h : H)
| UnlockUndefined.
Arguments UnlockOk {H} h.
Arguments UnlockUndefined {H}.

(** [Mutex] as the guard sees it: the two private member functions the
    friend class [Lock] calls, over a store [H] of mutex objects. *)
Class MutexImpl (H : Type) := {
  Mutex_lock : thread → mutex_ref → H → lock_result H;
  Mutex_unlock : thread → mutex_ref → H → unlock_result H
}.

(** ** The guard *)

(** The data members of [class Lock]. *)
Record Lock := mkLock {
  _mutex : mutex_ref;
  _locked : bool
}.

Global Instance Lock_eq_dec : EqDecision Lock.
Proof. solve_decision. Defined.

(** How a computation ends.  The state at the point where it stopped is
    kept in every defined case, so that one can speak of the guard as it is
    when a call never returned or was left by an exception. *)
Inductive outcome (S A : Type) :=
| Done (a : A) (s : S)
| Blocked (s : S)
| Threw (s : S)
| Undefined.
Arguments Done {S A} a s.
Arguments Blocked {S A} s.
Arguments Threw {S A} s.
Arguments Undefined {S A}.

(** Computations over a state [S]: sequencing stops at the first step that
    does not return. *)
Definition comp (S A : Type) : Type := S → outcome S A.

Global Instance comp_ret {S} : MRet (comp S) := λ A a s, Done a s.

Global Instance comp_bind {S} : MBind (comp S) := λ A B k c s,
  match c s with
  | Done a s' => k a s'
  | Blocked s' => Blocked s'
  | Threw s' => Threw s'
  | Undefined => Undefined
  end.

Section guard.
Context {H : Type} `{!MutexImpl H}.

(** What the calling thread sees besides the guard: the store of mutex
    objects and the log of the calls made on them. *)
Record env := mkEnv {
  heap : H;
  calls : list event
}.

(** A member function of [Lock] runs on the object ([this]) and the
    environment. *)
Definition method : Type → Type := comp (Lock * env).
Global Instance method_ret : MRet method := @comp_ret (Lock * env).
Global Instance method_bind : MBind method := @comp_bind (Lock * env).

Definition get_locked : method bool :=
  λ '(this, e), Done (_locked this) (this, e).

Definition set_locked (b : bool) : method unit :=
  λ '(this, e), Done () (mkLock (_mutex this) b, e).

(** [_mutex.lock()] *)
Definition call_lock (t : thread) : method unit :=
  λ '(this, e),
    let log := calls e ++ [EvLock (_mutex this)] in
    match Mutex_lock t (_mutex this) (heap e) with
    | LockOk h' => Done () (this, mkEnv h' log)
    | LockBlocks => Blocked (this, mkEnv (heap e) log)
    | LockThrows => Threw (this, mkEnv (heap e) log)
    | LockUndefined => Undefined
    end.

(** [_mutex.unlock()] *)
Definition call_unlock (t : thread) : method unit :=
  λ '(this, e),
    let log := calls e ++ [EvUnlock (_mutex this)] in
    match Mutex_unlock t (_mutex this) (heap e) with
    | UnlockOk h' => Done () (this, mkEnv h' log)
    | UnlockUndefined => Undefined
    end.

(** [Lock (const Mutex& m, bool autoLock = true)]: the member
    initialisers, then the body. *)
Definition Lock_ctor (t : thread) (m : mutex_ref) (autoLock : bool)
    (e : env) : outcome (Lock * env) unit :=
  (if autoLock then (call_lock t;; set_locked true) else mret ())
    (mkLock m false, e).

(** [~Lock ()] *)
Definition Lock_dtor (t : thread) : method unit :=
  held ← get_locked;
  if (held : bool) then call_unlock t else mret ().

(** [void acquire ()] *)
Definition acquire (t : thread) : method unit :=
  call_lock t;; set_locked true.

(** [void release ()] *)
Definition release (t : thread) : method unit :=
  call_unlock t;; set_locked false.

(** [bool locked ()] *)
Definition locked : method bool := get_locked.

(** *** The block of the usage comment

    [{ Lock lock (mtx, autoLock); body }]: the body is left by falling
    off its end, by a [return] statement, or by an exception.  The guard
    is an automatic object: once constructed, it is destroyed when
    control leaves the block.  A guard whose constructor did not complete
    is not destroyed. *)
Inductive completion :=
| FallsThrough
| Returns.

(** The guard is destroyed after the body completed with [c] ... *)
Definition leave (c : completion) (o : outcome (Lock * env) unit)
    : outcome env completion :=
  match o with
  | Done _ (_, e) => Done c e
  | Blocked (_, e) => Blocked e
  | Threw (_, e) => Threw e
  | Undefined => Undefined
  end.

(** ... or while an exception thrown by the body propagates. *)
Definition unwind (o : outcome (Lock * env) unit) : outcome env completion :=
  match o with
  | Done _ (_, e) => Threw e
  | Blocked (_, e) => Blocked e
  | Threw (_, e) => Threw e
  | Undefined => Undefined
  end.

Definition critical_section (t : thread) (m : mutex_ref) (autoLock : bool)
    (body : method completion) (e : env) : outcome env completion :=
  match Lock_ctor t m autoLock e with
  | Done _ s1 =>
      match body s1 with
      | Done c s2 => leave c (Lock_dtor t s2)
      | Threw s2 => unwind (Lock_dtor t s2)
      | Blocked (_, e2) => Blocked e2
      | Undefined => Undefined
      end
  | Blocked (_, e1) => Blocked e1
  | Threw (_, e1) => Threw e1
  | Undefined => Undefined
  end.
End guard.

(** ** The primitive *)

(** Modelled from the spec: the bodies of [Mutex::lock] and [Mutex::unlock]
    (declared private in the header, or those of [std::mutex]) are not part
    of the header.  A mutex object records which thread, if any, has
    exclusive access; the store maps the address of each live mutex object
    to it. *)
Abbreviation Mutex := (option thread) (only parsing).
Abbreviation mutex_store := (gmap mutex_ref Mutex) (only parsing).

(** Modelled from the spec: [lock] returns once exclusive access is
    obtained and waits while another thread has it; the primitive is not
    reentrant, so locking it again from the thread that has it is not
    defined.  A reference to no live mutex object is not defined either. *)
Definition owner_lock (t : thread) (m : mutex_ref) (h : mutex_store)
    : lock_result mutex_store :=
  match h !! m with
  | Some None => LockOk (<[m := Some t]> h)
  | Some (Some o) => if decide (o = t) then LockUndefined else LockBlocks
  | None => LockUndefined
  end.

(** Modelled from the spec: [unlock] releases exclusive access and is not
    defined for a thread that does not have it. *)
Definition owner_unlock (t : thread) (m : mutex_ref) (h : mutex_store)
    : unlock_result mutex_store :=
  match h !! m with
  | Some (Some o) => if decide (o = t) then UnlockOk (<[m := None]> h) else UnlockUndefined
  | _ => UnlockUndefined
  end.

Global Instance owner_mutex : MutexImpl mutex_store := {
  Mutex_lock := owner_lock;
  Mutex_unlock := owner_unlock
}.

(** Modelled from the spec: [Mutex ()] initialises a mutex object that no
    thread holds; the constructor's body is not part of the header. *)
Definition Mutex_ctor (m : mutex_ref) (h : mutex_store) : mutex_store :=
  <[m := None]> h.

(** Thread [t] has exclusive access to the mutex at [m]. *)
Definition owns (t : thread) (m : mutex_ref) (h : mutex_store) : Prop :=
  h !! m = Some (Some t).

Global Instance owns_dec t m h : Decision (owns t m h).
Proof. unfold owns. apply _. Defined.

(** One successful call on the primitive by a thread other than [t]. *)
Definition others_step (t : thread) (h h' : mutex_store) : Prop :=
  ∃ t' m', t' ≠ t ∧ (owner_lock t' m' h = LockOk h' ∨ owner_unlock t' m' h = UnlockOk h').

(** ** The guard's life as the spec draws it *)

Inductive GuardState :=
| Unheld
| Held.

Inductive GuardOp :=
| OpAcquire
| OpRelease
| OpScopeExit.

(** The two-state machine, following the spec's words: the initial state,
    and the transitions it lists.  [None] where the spec lists none. *)
Definition spec_init (autoLock : bool) : GuardState :=
  if autoLock then Held else Unheld.

Definition spec_step (s : GuardState) (op : GuardOp) : option GuardState :=
  match s, op with
  | Unheld, OpAcquire => Some Held
  | Held, OpRelease => Some Unheld
  | Held, OpScopeExit => Some Unheld
  | Unheld, OpScopeExit => Some Unheld
  | Unheld, OpRelease => None
  | Held, OpAcquire => None
  end.

(** The state a live guard is in, read off its flag ... *)
Definition state_of (l : Lock) : GuardState :=
  if _locked l then Held else Unheld.

(** ... and read off the primitive: does the guard's thread have it? *)
Definition access_of (t : thread) (m : mutex_ref)
    (h : mutex_store) : GuardState :=
  if decide (owns t m h) then Held else Unheld.

(** The data-model invariant: the mutex object is alive and the flag is set
    exactly when the guard's thread has exclusive access. *)
Definition guard_inv (t : thread) (l : Lock)
    (h : mutex_store) : Prop :=
  is_Some (h !! _mutex l) ∧ (_locked l = true ↔ owns t (_mutex l) h).

(** The member function behind each operation of the machine. *)
Definition run_op (t : thread) (op : GuardOp)
    : method (H := mutex_store) unit :=
  match op with
  | OpAcquire => acquire t
  | OpRelease => release t
  | OpScopeExit => Lock_dtor t
  end.

(** A block is left, with environment [e'], by completing or by an
    exception. *)
Definition exits {S A} (o : outcome S A) (s' : S) : Prop :=
  (∃ a, o = Done a s') ∨ o = Threw s'.

(** ** Threads that count under a guard *)

(** Modelled from the spec: the threads of the mutual-exclusion scenario are
    not part of the header.  Each of them runs
    [for (i = 0; i < iterations; ++i) { Lock lock (mtx, autoLock); counter += 1; }]
    on one shared mutex and one shared counter.  The increment is a read
    followed by a write, and the steps of different threads interleave in
    any order. *)
Inductive pc :=
| AtCtor
| AtRead
| AtWrite
| AtDtor
| Finished.

Global Instance pc_eq_dec : EqDecision pc.
Proof. solve_decision. Defined.

(** Modelled from the spec: what one such thread keeps for itself: where it
    is, its guard while the block is open, the value it read, and the
    iterations it still owes. *)
Record tstate := mkT {
  t_pc : pc;
  t_lock : option Lock;
  t_tmp : nat;
  t_left : nat
}.

(** Modelled from the spec: what all threads share (the mutex store with
    the log of calls, and the counter), and the threads themselves. *)
Record global := mkG {
  g_env : env (H := mutex_store);
  g_counter : nat;
  g_threads : list tstate
}.

Inductive step_result :=
| Stepped (g : global)
| Waiting
| Crashed.

(** Modelled from the spec: after the closing brace comes the next
    iteration, or the end of the loop. *)
Definition next_iteration (left : nat) : tstate :=
  mkT (if left is 0 then Finished else AtCtor) None 0 left.

(** Modelled from the spec: one step of thread [t].  The constructor and
    the destructor of its guard are those of the header; a constructor
    whose [lock] call waits is not a step. *)
Definition thread_step (mtx : mutex_ref) (autoLock : bool) (t : thread)
    (g : global) : step_result :=
  match g_threads g !! t with
  | None => Waiting
  | Some ts =>
      let put e c ts' := Stepped (mkG e c (<[t := ts']> (g_threads g))) in
      match t_pc ts with
      | AtCtor =>
          match Lock_ctor t mtx autoLock (g_env g) with
          | Done _ (l, e') =>
              put e' (g_counter g) (mkT AtRead (Some l) (t_tmp ts) (t_left ts))
          | Blocked _ => Waiting
          | Threw _ | Undefined => Crashed
          end
      | AtRead =>
          put (g_env g) (g_counter g)
              (mkT AtWrite (t_lock ts) (g_counter g) (t_left ts))
      | AtWrite =>
          put (g_env g) (t_tmp ts + 1)
              (mkT AtDtor (t_lock ts) (t_tmp ts) (t_left ts))
      | AtDtor =>
          match t_lock ts with
          | None => Crashed
          | Some l =>
              match Lock_dtor t (l, g_env g) with
              | Done _ (_, e') =>
                  put e' (g_counter g) (next_iteration (pred (t_left ts)))
              | Blocked _ => Waiting
              | Threw _ | Undefined => Crashed
              end
          end
      | Finished => Waiting
      end
  end.

(** Modelled from the spec: an interleaving is the list of the threads
    scheduled, in order.  A thread that is scheduled while it waits, or
    after it finished, leaves everything as it is. *)
Fixpoint run (mtx : mutex_ref) (autoLock : bool) (sched : list thread)
    (g : global) : option global :=
  match sched with
  | [] => Some g
  | t :: sched' =>
      match thread_step mtx autoLock t g with
      | Stepped g' => run mtx autoLock sched' g'
      | Waiting => run mtx autoLock sched' g
      | Crashed => None
      end
  end.

(** Modelled from the spec: [N] threads about to start, a fresh mutex, the
    counter at zero. *)
Definition init (mtx : mutex_ref) (N iters : nat) : global :=
  mkG (mkEnv (Mutex_ctor mtx ∅) []) 0 (replicate N (next_iteration iters)).

Definition finished (ts : tstate) : bool :=
  bool_decide (t_pc ts = Finished).

Definition all_finished (g : global) : bool :=
  forallb finished (g_threads g).

(** *** What the proof of mutual exclusion keeps track of *)

(** Between the guard's constructor and its destructor. *)
Definition in_cs (p : pc) : bool :=
  match p with
  | AtRead | AtWrite | AtDtor => true
  | AtCtor | Finished => false
  end.

(** Increments a thread has yet to write. *)
Definition pending (ts : tstate) : nat :=
  match t_pc ts with
  | AtDtor => pred (t_left ts)
  | _ => t_left ts
  end.

(** Steps a thread has yet to take. *)
Definition weight (ts : tstate) : nat :=
  match t_pc ts with
  | AtCtor => 4 * t_left ts
  | AtRead => 4 * t_left ts - 1
  | AtWrite => 4 * t_left ts - 2
  | AtDtor => 4 * t_left ts - 3
  | Finished => 0
  end.

Definition thread_ok (mtx : mutex_ref) (h : mutex_store)
    (counter : nat) (t : thread) (ts : tstate) : Prop :=
  (in_cs (t_pc ts) = true ↔ owns t mtx h)
  ∧ (in_cs (t_pc ts) = true → t_lock ts = Some (mkLock mtx true))
  ∧ (t_pc ts = AtWrite → t_tmp ts = counter)
  ∧ (t_pc ts = Finished ↔ t_left ts = 0).

(** The mutex is alive and whoever has it is one of the threads; every
    thread is where its guard says it is; and the counter together with the
    increments still owed makes up the total. *)
Definition counting_inv (mtx : mutex_ref) (total : nat) (g : global) : Prop :=
  (∃ o, heap (g_env g) !! mtx = Some o
        ∧ ∀ t, o = Some t → is_Some (g_threads g !! t))
  ∧ (∀ t ts, g_threads g !! t = Some ts →
             thread_ok mtx (heap (g_env g)) (g_counter g) t ts)
  ∧ g_counter g + sum_list_with pending (g_threads g) = total.

(** Steps all threads together have yet to take. *)
Definition steps_left (g : global) : nat :=
  sum_list_with weight (g_threads g).

(** ** Concrete environments *)

(** One fresh mutex at [m], nothing logged. *)
Definition env_with_mutex (m : mutex_ref) : env (H := mutex_store) :=
  mkEnv (Mutex_ctor m ∅) [].

(** One mutex at [m] that thread [t] has, nothing logged. *)
Definition env_held_by (m : mutex_ref) (t : thread) : env (H := mutex_store) :=
  mkEnv (<[m := Some t]> (Mutex_ctor m ∅)) [].

(** A body that throws at once, and one that returns early. *)
Definition throwing_body : method (H := mutex_store) completion :=
  λ s, Threw s.

Definition returning_body : method (H := mutex_store) completion :=
  λ s, Done Returns s.

(** Two threads, two iterations each, interleaved: thread 1 first finds
    the mutex taken and waits. *)
Definition interleaved_schedule : list thread :=
  [0; 1; 0; 1; 0; 0; 1; 0; 1; 1; 1; 0; 0; 0; 0; 1; 1; 1; 1].

(** Two threads, one iteration each, in lock step. *)
Definition lock_step_schedule : list thread :=
  [0; 1; 0; 1; 0; 1; 0; 1].

(** A computation stopped at [s'] without returning: it waits for ever or
    was left by an exception. *)
Definition stopped_at {S A} (o : outcome S A) (s' : S) : Prop :=
  o = Blocked s' ∨ o = Threw s'.

(** ** Sequences of calls on a live guard *)

(** The member functions a caller can invoke between construction and
    destruction. *)
Inductive call :=
| CallAcquire
| CallRelease
| CallLocked.

Section guard_calls.
Context {H : Type} `{!MutexImpl H}.

(** [lock.acquire ();], [lock.release ();], [lock.locked ();] as
    statements: the answer of the query is dropped. *)
Definition do_call (t : thread) (c : call) : method (H := H) unit :=
  match c with
  | CallAcquire => acquire t
  | CallRelease => release t
  | CallLocked => locked;; mret ()
  end.

(** The statements one after the other. *)
Fixpoint do_calls (t : thread) (cs : list call) : method (H := H) unit :=
  match cs with
  | [] => mret ()
  | c :: cs' => do_call t c;; do_calls t cs'
  end.
End guard_calls.

(** The call a statement makes on the primitive at [m], if any. *)
Definition event_of (m : mutex_ref) (c : call) : list event :=
  match c with
  | CallAcquire => [EvLock m]
  | CallRelease => [EvUnlock m]
  | CallLocked => []
  end.

Definition events_of (m : mutex_ref) (cs : list call) : list event :=
  concat (map (event_of m) cs).

(** The flag after a statement, and after a sequence of them. *)
Definition flag_step (b : bool) (c : call) : bool :=
  match c with
  | CallAcquire => true
  | CallRelease => false
  | CallLocked => b
  end.

Definition flag_after (b : bool) (cs : list call) : bool :=
  fold_left flag_step cs b.

(** The caller contract on a sequence that starts with the flag at [b]:
    no [acquire] while held, no [release] while unheld. *)
Fixpoint obeys (b : bool) (cs : list call) : bool :=
  match cs with
  | [] => true
  | CallAcquire :: cs' => negb b && obeys true cs'
  | CallRelease :: cs' => b && obeys false cs'
  | CallLocked :: cs' => obeys b cs'
  end.

(** The mutex a primitive call was made on. *)
Definition mutex_of (ev : event) : mutex_ref :=
  match ev with
  | EvLock m => m
  | EvUnlock m => m
  end.

(** The state a computation ended or stopped in, when it has one. *)
Definition final_state {S A} (o : outcome S A) : option S :=
  match o with
  | Done _ s => Some s
  | Blocked s => Some s
  | Threw s => Some s
  | Undefined => None
  end.

(** From [e] to [e'] at most [n] calls were logged, all on the mutex at
    [m]. *)
Definition logged_on {H : Type} (m : mutex_ref) (n : nat) (e e' : env (H := H)) : Prop :=
  ∃ evs, calls e' = calls e ++ evs
         ∧ Forall (λ ev, mutex_of ev = m) evs
         ∧ length evs ≤ n.

(** * Properties *)

(** ** Equations of the member functions, for any primitive *)

Section guard_equations.
Context {H : Type} `{!MutexImpl H}.
Implicit Types (t : thread) (m : mutex_ref) (this l : Lock) (e : env (H := H)).

Lemma call_lock_eq t this e :
  call_lock t (this, e) =
    match Mutex_lock t (_mutex this) (heap e) with
    | LockOk h' => Done () (this, mkEnv h' (calls e ++ [EvLock (_mutex this)]))
    | LockBlocks => Blocked (this, mkEnv (heap e) (calls e ++ [EvLock (_mutex this)]))
    | LockThrows => Threw (this, mkEnv (heap e) (calls e ++ [EvLock (_mutex this)]))
    | LockUndefined => Undefined
    end.
Proof. reflexivity. Qed.

Lemma acquire_eq t this e :
  acquire t (this, e) =
    match Mutex_lock t (_mutex this) (heap e) with
    | LockOk h' =>
        Done () (mkLock (_mutex this) true,
                 mkEnv h' (calls e ++ [EvLock (_mutex this)]))
    | LockBlocks => Blocked (this, mkEnv (heap e) (calls e ++ [EvLock (_mutex this)]))
    | LockThrows => Threw (this, mkEnv (heap e) (calls e ++ [EvLock (_mutex this)]))
    | LockUndefined => Undefined
    end.
Proof.
  unfold acquire, mbind, method_bind, comp_bind. rewrite call_lock_eq.
  by destruct (Mutex_lock t (_mutex this) (heap e)).
Qed.

Lemma release_eq t this e :
  release t (this, e) =
    match Mutex_unlock t (_mutex this) (heap e) with
    | UnlockOk h' =>
        Done () (mkLock (_mutex this) false,
                 mkEnv h' (calls e ++ [EvUnlock (_mutex this)]))
    | UnlockUndefined => Undefined
    end.
Proof.
  unfold release, mbind, method_bind, comp_bind, call_unlock.
  by destruct (Mutex_unlock t (_mutex this) (heap e)).
Qed.

Lemma Lock_ctor_eq t m (autoLock : bool) e :
  Lock_ctor t m autoLock e =
    if autoLock then acquire t (mkLock m false, e)
    else Done () (mkLock m false, e).
Proof. by destruct autoLock. Qed.

Lemma Lock_dtor_eq t this e :
  Lock_dtor t (this, e) =
    if _locked this then
      match Mutex_unlock t (_mutex this) (heap e) with
      | UnlockOk h' => Done () (this, mkEnv h' (calls e ++ [EvUnlock (_mutex this)]))
      | UnlockUndefined => Undefined
      end
    else Done () (this, e).
Proof.
  unfold Lock_dtor, mbind, method_bind, comp_bind. simpl.
  by destruct (_locked this).
Qed.

Lemma Lock_dtor_not_thrown t s s' : Lock_dtor t s ≠ Threw s'.
Proof.
  destruct s as [this e]. rewrite Lock_dtor_eq.
  destruct (_locked this); [|done].
  by destruct (Mutex_unlock t (_mutex this) (heap e)).
Qed.

Lemma Lock_dtor_not_blocked t s s' : Lock_dtor t s ≠ Blocked s'.
Proof.
  destruct s as [this e]. rewrite Lock_dtor_eq.
  destruct (_locked this); [|done].
  by destruct (Mutex_unlock t (_mutex this) (heap e)).
Qed.

Lemma unlock_count_snoc m log ev :
  unlock_count m (log ++ [ev]) =
    unlock_count m log + (if is_unlock_of m ev then 1 else 0).
Proof.
  unfold unlock_count. rewrite filter_app, length_app. f_equal.
  rewrite filter_cons, filter_nil.
  destruct (is_unlock_of m ev); by case_decide.
Qed.

Lemma lock_count_snoc m log ev :
  lock_count m (log ++ [ev]) =
    lock_count m log + (if is_lock_of m ev then 1 else 0).
Proof.
  unfold lock_count. rewrite filter_app, length_app. f_equal.
  rewrite filter_cons, filter_nil.
  destruct (is_lock_of m ev); by case_decide.
Qed.
End guard_equations.

(** ** The guard over any primitive *)

Section guard_claims.
Context {H : Type} `{!MutexImpl H}.
Implicit Types (t : thread) (m : mutex_ref) (this l : Lock) (e : env (H := H)).

(** C7: [locked ()] returns the held flag as it is and changes nothing:
    the guard (its flag and its reference) and the environment (the
    store of mutexes, the log of primitive calls) are the same after the
    call as before. *)
Theorem locked_is_pure this e :
  locked (this, e) = Done (_locked this) (this, e).
Proof. reflexivity. Qed.

(** C3: constructing a guard with [autoLock = false] makes no call on the
    primitive: the constructor returns an unheld guard on [m] in an
    unchanged environment, [locked ()] answers [false], and as long as
    [acquire] is not called neither the query, nor the destructor, nor a
    whole block that leaves the guard alone touches the primitive. *)
Theorem Lock_ctor_deferred t m e :
  Lock_ctor t m false e = Done () (mkLock m false, e)
  ∧ locked (mkLock m false, e) = Done false (mkLock m false, e)
  ∧ Lock_dtor t (mkLock m false, e) = Done () (mkLock m false, e)
  ∧ ∀ c, critical_section t m false (mret c) e = Done c e.
Proof. repeat split. Qed.

(** C6: [release ()] calls [unlock] on the primitive and clears the flag
    whatever the flag was, and [acquire ()] calls [lock] whatever the flag
    was: the flag [b] the guard starts with decides neither the call nor
    its result, and the guard raises no error of its own ([release]
    either returns or, where the primitive's [unlock] is not defined, is
    not defined itself). *)
Theorem release_and_acquire_unchecked t m e (b : bool) :
  release t (mkLock m b, e) =
    match Mutex_unlock t m (heap e) with
    | UnlockOk h' =>
        Done () (mkLock m false, mkEnv h' (calls e ++ [EvUnlock m]))
    | UnlockUndefined => Undefined
    end
  ∧ acquire t (mkLock m b, e) =
    match Mutex_lock t m (heap e) with
    | LockOk h' =>
        Done () (mkLock m true, mkEnv h' (calls e ++ [EvLock m]))
    | LockBlocks => Blocked (mkLock m b, mkEnv (heap e) (calls e ++ [EvLock m]))
    | LockThrows => Threw (mkLock m b, mkEnv (heap e) (calls e ++ [EvLock m]))
    | LockUndefined => Undefined
    end
  ∧ release t (mkLock m b, e) = release t (mkLock m (negb b), e)
  ∧ ((∃ s', release t (mkLock m b, e) = Done () s')
     ∨ release t (mkLock m b, e) = Undefined).
Proof.
  split_and!.
  - apply release_eq.
  - apply acquire_eq.
  - by rewrite !release_eq.
  - rewrite release_eq. simpl.
    destruct (Mutex_unlock t m (heap e)); eauto.
Qed.

(** C10: the flag is set only after [lock] has returned.  If the
    primitive's [lock] waits for ever or is left by an exception, then
    [acquire ()] stops there with the guard as it was, the auto-locking
    constructor stops there with the flag still [false], a block opened
    on such a constructor stops there too without any destructor call,
    and a destructor run on the unheld guard makes no call on the
    primitive. *)
Theorem failed_lock_keeps_flag t this e :
  let m := _mutex this in
  let e1 := mkEnv (heap e) (calls e ++ [EvLock m]) in
  Mutex_lock t m (heap e) = LockBlocks ∨ Mutex_lock t m (heap e) = LockThrows →
  stopped_at (acquire t (this, e)) (this, e1)
  ∧ stopped_at (Lock_ctor t m true e) (mkLock m false, e1)
  ∧ (∀ body, stopped_at (critical_section t m true body e) e1)
  ∧ (_locked this = false → Lock_dtor t (this, e1) = Done () (this, e1))
  ∧ Lock_dtor t (mkLock m false, e1) = Done () (mkLock m false, e1).
Proof.
  intros m e1 Hfail. split_and!.
  - rewrite acquire_eq. fold m. destruct Hfail as [-> | ->]; [by left | by right].
  - rewrite Lock_ctor_eq, acquire_eq. simpl.
    destruct Hfail as [-> | ->]; [by left | by right].
  - intros body. unfold critical_section.
    rewrite Lock_ctor_eq, acquire_eq. simpl.
    destruct Hfail as [-> | ->]; [by left | by right].
  - intros Hflag. by rewrite Lock_dtor_eq, Hflag.
  - reflexivity.
Qed.

Lemma Lock_dtor_done_inv t this e s' :
  Lock_dtor t (this, e) = Done () s' →
  s'.1 = this
  ∧ calls s'.2 = calls e ++ (if _locked this then [EvUnlock (_mutex this)] else []).
Proof.
  rewrite Lock_dtor_eq. destruct (_locked this).
  - destruct (Mutex_unlock t (_mutex this) (heap e)); [|done].
    by intros [= <-].
  - intros [= <-]. simpl. by rewrite app_nil_r.
Qed.

Lemma exits_leave_inv c (o : outcome (Lock * env) unit) e' :
  exits (leave c o) e' → ∃ l, o = Done () (l, e') ∨ o = Threw (l, e').
Proof.
  destruct o as [[] [l e3] | [? ?] | [l e3] |]; simpl;
    (intros [[? ?] | ?]; [|try done]); simplify_eq; eauto.
Qed.

Lemma exits_unwind_inv (o : outcome (Lock * env) unit) e' :
  exits (unwind o) e' → ∃ l, o = Done () (l, e') ∨ o = Threw (l, e').
Proof.
  destruct o as [[] [l e3] | [? ?] | [l e3] |]; simpl;
    (intros [[? ?] | ?]; [try done|]); simplify_eq; eauto.
Qed.

(** Every way out of the block: either the constructor threw, or the
    destructor ran on the guard as the body left it. *)
Lemma critical_section_exit_inv t m autoLock body e e' :
  exits (critical_section t m autoLock body e) e' →
  (autoLock = true ∧ Mutex_lock t m (heap e) = LockThrows
   ∧ e' = mkEnv (heap e) (calls e ++ [EvLock m]))
  ∨ ∃ s1 l2 e2,
      Lock_ctor t m autoLock e = Done () s1
      ∧ exits (body s1) (l2, e2)
      ∧ Lock_dtor t (l2, e2) = Done () (l2, e')
      ∧ calls e' =
          calls e2 ++ (if _locked l2 then [EvUnlock (_mutex l2)] else []).
Proof.
  intros Hex. unfold critical_section in Hex.
  destruct (Lock_ctor t m autoLock e) as [[] s1| [? ?] | [l1 e1] |] eqn:Hc.
  - right.
    destruct (body s1) as [c [l2 e2] | [? ?] | [l2 e2] |] eqn:Hb.
    + apply exits_leave_inv in Hex as [l3 [Hd | Hd]];
        [|by apply Lock_dtor_not_thrown in Hd].
      destruct (Lock_dtor_done_inv _ _ _ _ Hd) as [Hl Hcalls].
      simpl in Hl, Hcalls. subst l3.
      exists s1, l2, e2. split_and!; [done | left; eauto | done | done].
    + destruct Hex as [[? ?] | ?]; done.
    + apply exits_unwind_inv in Hex as [l3 [Hd | Hd]];
        [|by apply Lock_dtor_not_thrown in Hd].
      destruct (Lock_dtor_done_inv _ _ _ _ Hd) as [Hl Hcalls].
      simpl in Hl, Hcalls. subst l3.
      exists s1, l2, e2. split_and!; [done | by right | done | done].
    + destruct Hex as [[? ?] | ?]; done.
  - destruct Hex as [[? ?] | ?]; done.
  - left. rewrite Lock_ctor_eq in Hc. destruct autoLock; [|done].
    rewrite acquire_eq in Hc. simpl in Hc.
    destruct (Mutex_lock t m (heap e)); try done.
    destruct Hex as [[? ?] | ?]; [done|]. by simplify_eq.
  - destruct Hex as [[? ?] | ?]; done.
Qed.

(** Once the guard is constructed, the way the body ends decides the block:
    a body that falls through or returns with [c], or throws, is followed
    by the destructor's work on the guard as the body left it -- one
    [unlock] call if the flag is set, nothing if it is not -- and the block
    then ends the same way the body did. *)
Lemma critical_section_runs_dtor t m autoLock (body : method completion)
    e s1 l2 e2 :
  Lock_ctor t m autoLock e = Done () s1 →
  (∀ c, body s1 = Done c (l2, e2) →
        critical_section t m autoLock body e =
          if _locked l2 then
            match Mutex_unlock t (_mutex l2) (heap e2) with
            | UnlockOk h' =>
                Done c (mkEnv h' (calls e2 ++ [EvUnlock (_mutex l2)]))
            | UnlockUndefined => Undefined
            end
          else Done c e2)
  ∧ (body s1 = Threw (l2, e2) →
     critical_section t m autoLock body e =
       if _locked l2 then
         match Mutex_unlock t (_mutex l2) (heap e2) with
         | UnlockOk h' =>
             Threw (mkEnv h' (calls e2 ++ [EvUnlock (_mutex l2)]))
         | UnlockUndefined => Undefined
         end
       else Threw e2).
Proof.
  intros Hc. unfold critical_section. rewrite Hc.
  split; [intros c Hb | intros Hb]; rewrite Hb, Lock_dtor_eq;
    (destruct (_locked l2);
       [by destruct (Mutex_unlock t (_mutex l2) (heap e2)) | done]).
Qed.

(** C1: the destructor makes exactly one [unlock] call on the guard's
    primitive when the flag is set and does nothing at all when it is
    not.  This runs on every way out of a block on which a guard was
    constructed: when the body falls off its end or returns early with
    [c], or throws, the block makes the destructor's [unlock] call on the
    guard as the body left it (none if the flag is clear) and only then
    ends, the same way the body did.  Conversely, whenever control has
    left a block, the destructor has run on the guard as the body left it;
    the only exits without a destructor call are those where the
    constructor itself was left by an exception, so that no guard ever
    existed. *)
Theorem Lock_dtor_on_every_exit t :
  (∀ this e,
     Lock_dtor t (this, e) =
       if _locked this then
         match Mutex_unlock t (_mutex this) (heap e) with
         | UnlockOk h' =>
             Done () (this, mkEnv h' (calls e ++ [EvUnlock (_mutex this)]))
         | UnlockUndefined => Undefined
         end
       else Done () (this, e))
  ∧ (∀ this e s',
       Lock_dtor t (this, e) = Done () s' →
       calls s'.2 = calls e ++ (if _locked this then [EvUnlock (_mutex this)] else [])
       ∧ unlock_count (_mutex this) (calls s'.2) =
           unlock_count (_mutex this) (calls e) + (if _locked this then 1 else 0))
  ∧ (∀ m autoLock body e e',
       exits (critical_section t m autoLock body e) e' →
       (autoLock = true ∧ Mutex_lock t m (heap e) = LockThrows
        ∧ e' = mkEnv (heap e) (calls e ++ [EvLock m]))
       ∨ ∃ s1 l2 e2,
           Lock_ctor t m autoLock e = Done () s1
           ∧ exits (body s1) (l2, e2)
           ∧ Lock_dtor t (l2, e2) = Done () (l2, e')
           ∧ calls e' =
               calls e2 ++ (if _locked l2 then [EvUnlock (_mutex l2)] else []))
  ∧ (∀ m autoLock (body : method completion) e s1 l2 e2,
       Lock_ctor t m autoLock e = Done () s1 →
       (∀ c, body s1 = Done c (l2, e2) →
             critical_section t m autoLock body e =
               if _locked l2 then
                 match Mutex_unlock t (_mutex l2) (heap e2) with
                 | UnlockOk h' =>
                     Done c (mkEnv h' (calls e2 ++ [EvUnlock (_mutex l2)]))
                 | UnlockUndefined => Undefined
                 end
               else Done c e2)
       ∧ (body s1 = Threw (l2, e2) →
          critical_section t m autoLock body e =
            if _locked l2 then
              match Mutex_unlock t (_mutex l2) (heap e2) with
              | UnlockOk h' =>
                  Threw (mkEnv h' (calls e2 ++ [EvUnlock (_mutex l2)]))
              | UnlockUndefined => Undefined
              end
            else Threw e2)).
Proof.
  split_and!.
  - apply Lock_dtor_eq.
  - intros this e s' Hd.
    destruct (Lock_dtor_done_inv _ _ _ _ Hd) as [_ Hc]. split; [done|].
    rewrite Hc. destruct (_locked this).
    + rewrite unlock_count_snoc. simpl. by rewrite bool_decide_eq_true_2.
    + by rewrite app_nil_r, Nat.add_0_r.
  - apply critical_section_exit_inv.
  - apply critical_section_runs_dtor.
Qed.
End guard_claims.

(** ** The modelled primitive *)

Section owner_mutex_facts.
Implicit Types (t o : thread) (m : mutex_ref) (h : mutex_store).

Lemma owner_lock_free t m h :
  h !! m = Some None → owner_lock t m h = LockOk (<[m := Some t]> h).
Proof. unfold owner_lock. by intros ->. Qed.

Lemma owner_lock_taken t o m h :
  h !! m = Some (Some o) → o ≠ t → owner_lock t m h = LockBlocks.
Proof. unfold owner_lock. intros -> ?. by case_decide. Qed.

Lemma owner_lock_ok_inv t m h h' :
  owner_lock t m h = LockOk h' → h !! m = Some None ∧ h' = <[m := Some t]> h.
Proof.
  unfold owner_lock. destruct (h !! m) as [[o|]|]; [case_decide| |]; try done.
  by intros [= <-].
Qed.

Lemma owner_unlock_owned t m h :
  owns t m h → owner_unlock t m h = UnlockOk (<[m := None]> h).
Proof. unfold owns, owner_unlock. intros ->. by case_decide. Qed.

Lemma owner_unlock_ok_inv t m h h' :
  owner_unlock t m h = UnlockOk h' → owns t m h ∧ h' = <[m := None]> h.
Proof.
  unfold owner_unlock, owns.
  destruct (h !! m) as [[o|]|]; [case_decide| |]; try done.
  intros [= <-]. by subst.
Qed.

(** What other threads do on the primitive neither gives [t] a mutex nor
    takes one from it, and destroys none. *)
Lemma others_step_owns t m h h' :
  others_step t h h' → (owns t m h ↔ owns t m h').
Proof.
  intros (t' & m' & Hne & [Hs | Hs]).
  - apply owner_lock_ok_inv in Hs as [Hfree ->]. unfold owns.
    destruct (decide (m' = m)) as [-> | ?].
    + rewrite lookup_insert_eq, Hfree. split; intros [= ?]; by subst.
    + by rewrite lookup_insert_ne.
  - apply owner_unlock_ok_inv in Hs as [Hown ->]. unfold owns in *.
    destruct (decide (m' = m)) as [-> | ?].
    + rewrite lookup_insert_eq, Hown. split; intros [= ?]; by subst.
    + by rewrite lookup_insert_ne.
Qed.

Lemma others_step_alive t m h h' :
  others_step t h h' → is_Some (h !! m) → is_Some (h' !! m).
Proof.
  intros (t' & m' & Hne & [Hs | Hs]) Hal.
  - apply owner_lock_ok_inv in Hs as [_ ->].
    destruct (decide (m' = m)) as [-> | ?];
      [by rewrite lookup_insert_eq | by rewrite lookup_insert_ne].
  - apply owner_unlock_ok_inv in Hs as [_ ->].
    destruct (decide (m' = m)) as [-> | ?];
      [by rewrite lookup_insert_eq | by rewrite lookup_insert_ne].
Qed.

Lemma others_steps_owns t m h h' :
  rtc (others_step t) h h' → (owns t m h ↔ owns t m h').
Proof.
  induction 1 as [|h1 h2 h3 Hs _ IH]; [done|].
  by rewrite (others_step_owns _ m _ _ Hs).
Qed.

Lemma others_steps_alive t m h h' :
  rtc (others_step t) h h' → is_Some (h !! m) → is_Some (h' !! m).
Proof.
  induction 1 as [|h1 h2 h3 Hs _ IH]; [done|].
  intros Hal. apply IH. by eapply others_step_alive.
Qed.

Lemma owned_blocks_others t t' m h :
  owns t m h → t' ≠ t → owner_lock t' m h = LockBlocks.
Proof. intros Hown Hne. by apply (owner_lock_taken t' t). Qed.

Lemma state_of_access_of t l h :
  guard_inv t l h → state_of l = access_of t (_mutex l) h.
Proof.
  intros [_ Hiff]. unfold state_of, access_of.
  destruct (_locked l); case_decide; try done.
  - by destruct Hiff as [Hiff _]; specialize (Hiff eq_refl).
  - by destruct Hiff as [_ Hiff]; specialize (Hiff ltac:(done)).
Qed.
End owner_mutex_facts.

(** ** The guard on the modelled primitive *)

Section guard_on_owner_mutex.
Implicit Types (t : thread) (m : mutex_ref) (l : Lock).
Implicit Types (h : mutex_store).
Implicit Types (e : env (H := mutex_store)).

(** C2: whenever the auto-locking constructor returns -- over any
    primitive -- it has called [lock] once on that primitive and set the
    flag, so that [locked ()] answers [true].  On the modelled primitive:
    the constructor does return when the mutex is free, its thread then
    has exclusive access, and whatever other threads go on to do, each
    [lock] call of another thread on this mutex waits for as long as the
    guard's thread has not released it. *)
Theorem Lock_ctor_autoLock_holds :
  (∀ (H : Type) (I : MutexImpl H) t m (e : env (H := H)) s',
     Lock_ctor t m true e = Done () s' →
     s'.1 = mkLock m true
     ∧ locked s' = Done true s'
     ∧ calls s'.2 = calls e ++ [EvLock m]
     ∧ lock_count m (calls s'.2) = S (lock_count m (calls e))
     ∧ Mutex_lock t m (heap e) = LockOk (heap s'.2))
  ∧ (∀ t m e,
       heap e !! m = Some None →
       ∃ e', Lock_ctor t m true e = Done () (mkLock m true, e')
             ∧ locked (mkLock m true, e') = Done true (mkLock m true, e')
             ∧ owns t m (heap e')
             ∧ ∀ h, rtc (others_step t) (heap e') h →
                    owns t m h
                    ∧ ∀ t', t' ≠ t → Mutex_lock t' m h = LockBlocks).
Proof.
  split.
  - intros H I t m e s'. rewrite Lock_ctor_eq, acquire_eq. simpl.
    destruct (Mutex_lock t m (heap e)); try done.
    intros [= <-]. simpl. split_and!; try done.
    rewrite lock_count_snoc. simpl. rewrite bool_decide_eq_true_2 by done. lia.
  - intros t m e Hfree.
    exists (mkEnv (<[m := Some t]> (heap e)) (calls e ++ [EvLock m])).
    assert (owns t m (<[m := Some t]> (heap e))) as Hown
      by apply lookup_insert_eq.
    split_and!; [|done|done|].
    + rewrite Lock_ctor_eq, acquire_eq. simpl. by rewrite owner_lock_free.
    + simpl. intros h Hrtc.
      apply (others_steps_owns t m) in Hrtc. apply Hrtc in Hown.
      split; [done|]. intros t' Hne. by apply (owned_blocks_others t).
Qed.

(** C4: under the caller contract the guard follows the two-state machine
    and keeps the invariant that its flag is set exactly when its thread
    has exclusive access to its mutex (a thread reaches a mutex through
    this one guard, so the guard has the mutex when its thread has).  Construction establishes the
    invariant in the machine's initial state; each operation the machine
    allows in the guard's state leads, when it returns, to the machine's
    next state with the invariant kept, and it does return (for
    [acquire]: once the mutex is free).  Leaving the scope ends the
    guard's life, so the state afterwards is read off the primitive;
    leaving it unheld touches nothing.  Steps of other threads keep the
    invariant. *)
Theorem guard_follows_state_machine t :
  (∀ m autoLock e s',
     is_Some (heap e !! m) → ¬ owns t m (heap e) →
     Lock_ctor t m autoLock e = Done () s' →
     _mutex s'.1 = m
     ∧ state_of s'.1 = spec_init autoLock
     ∧ guard_inv t s'.1 (heap s'.2))
  ∧ (∀ op l e s,
       guard_inv t l (heap e) →
       spec_step (state_of l) op = Some s →
       (∀ s', run_op t op (l, e) = Done () s' →
              _mutex s'.1 = _mutex l
              ∧ access_of t (_mutex l) (heap s'.2) = s
              ∧ (op ≠ OpScopeExit →
                 state_of s'.1 = s ∧ guard_inv t s'.1 (heap s'.2))
              ∧ (op = OpScopeExit → state_of l = Unheld → s'.2 = e))
       ∧ (op ≠ OpAcquire ∨ heap e !! _mutex l = Some None →
          ∃ s', run_op t op (l, e) = Done () s'))
  ∧ (∀ l h, guard_inv t l h → state_of l = access_of t (_mutex l) h)
  ∧ (∀ l h h', guard_inv t l h → others_step t h h' → guard_inv t l h').
Proof.
  split_and!.
  - intros m autoLock e s' Halive Hnown. rewrite Lock_ctor_eq.
    destruct autoLock.
    + rewrite acquire_eq. simpl.
      destruct (owner_lock t m (heap e)) as [h'| | |] eqn:Hl; try done.
      apply owner_lock_ok_inv in Hl as [_ ->]. intros [= <-]. simpl.
      split_and!; [done..|]. split; simpl.
      * by rewrite lookup_insert_eq.
      * split; [intros _; apply lookup_insert_eq | done].
    + intros [= <-]. simpl. split_and!; [done..|]. split; [done|]. simpl.
      split; [done|]. intros ?. by destruct Hnown.
  - intros op l e s Hinv Hstep.
    pose proof (state_of_access_of _ _ _ Hinv) as Hst.
    destruct Hinv as [Halive Hiff].
    destruct l as [m b]. simpl in *.
    unfold state_of in Hstep, Hst. simpl in Hstep, Hst.
    destruct b, op; simplify_eq/=.
    + (* Held, release *)
      assert (owns t m (heap e)) as Hown by by apply Hiff.
      rewrite release_eq. simpl. rewrite (owner_unlock_owned _ _ _ Hown).
      split; [|eauto]. intros s' [= <-]. simpl.
      assert (¬ owns t m (<[m := None]> (heap e))) as Hnown.
      { unfold owns. by rewrite lookup_insert_eq. }
      split_and!; [done | | | done].
      * unfold access_of. by case_decide.
      * intros _. split; [done|]. split; simpl.
        -- by rewrite lookup_insert_eq.
        -- split; [done | by intros ?].
    + (* Held, scope exit *)
      assert (owns t m (heap e)) as Hown by by apply Hiff.
      rewrite Lock_dtor_eq. simpl. rewrite (owner_unlock_owned _ _ _ Hown).
      split; [|eauto]. intros s' [= <-]. simpl.
      split_and!; [done | | done | done].
      unfold access_of. case_decide as Hown'; [|done].
      unfold owns in Hown'. by rewrite lookup_insert_eq in Hown'.
    + (* Unheld, acquire *)
      rewrite acquire_eq. simpl. split.
      * intros s'.
        destruct (owner_lock t m (heap e)) as [h'| | |] eqn:Hl; try done.
        apply owner_lock_ok_inv in Hl as [_ ->]. intros [= <-]. simpl.
        assert (owns t m (<[m := Some t]> (heap e))) as Hown
          by apply lookup_insert_eq.
        split_and!; [done | | | done].
        -- unfold access_of. by case_decide.
        -- intros _. split; [done|]. split; simpl; [by rewrite Hown | done].
      * intros [? | Hfree]; [done|]. rewrite (owner_lock_free _ _ _ Hfree). eauto.
    + (* Unheld, scope exit *)
      rewrite Lock_dtor_eq. simpl. split; [|eauto]. intros s' [= <-]. simpl.
      split_and!; [done | | done | done].
      unfold access_of. case_decide as Hown; [|done].
      apply Hiff in Hown. done.
  - intros l h. apply state_of_access_of.
  - intros l h h' [Halive Hiff] Hs. split.
    + by eapply others_step_alive.
    + by rewrite <-(others_step_owns _ _ _ _ Hs).
Qed.

(** C5: after [release ()] -- over any primitive, whenever it returns --
    [locked ()] answers [false].  On the modelled primitive, for a guard
    whose thread has the mutex: [release ()] returns, leaving the flag
    clear and one [unlock] call in the log; an [acquire ()] that follows
    returns too, having called [lock] and set the flag, and the thread
    has the mutex exactly as before.  If other threads used the mutex in
    between, [acquire ()] still either returns held or waits: the guard
    is never stuck. *)
Theorem release_then_acquire :
  (∀ (H : Type) (I : MutexImpl H) t l (e : env (H := H)) s',
     release t (l, e) = Done () s' →
     locked s' = Done false s' ∧ _mutex s'.1 = _mutex l)
  ∧ (∀ t l e,
       owns t (_mutex l) (heap e) →
       let m := _mutex l in
       let log1 := calls e ++ [EvUnlock m] in
       ∃ h1,
         release t (l, e) = Done () (mkLock m false, mkEnv h1 log1)
         ∧ locked (mkLock m false, mkEnv h1 log1)
             = Done false (mkLock m false, mkEnv h1 log1)
         ∧ acquire t (mkLock m false, mkEnv h1 log1)
             = Done () (mkLock m true, mkEnv (heap e) (log1 ++ [EvLock m]))
         ∧ locked (mkLock m true, mkEnv (heap e) (log1 ++ [EvLock m]))
             = Done true (mkLock m true, mkEnv (heap e) (log1 ++ [EvLock m]))
         ∧ ∀ h, rtc (others_step t) h1 h →
                (∃ h2, acquire t (mkLock m false, mkEnv h log1)
                         = Done () (mkLock m true, mkEnv h2 (log1 ++ [EvLock m]))
                       ∧ owns t m h2)
                ∨ acquire t (mkLock m false, mkEnv h log1)
                    = Blocked (mkLock m false, mkEnv h (log1 ++ [EvLock m]))).
Proof.
  split.
  - intros H I t l e s'. rewrite release_eq.
    destruct (Mutex_unlock t (_mutex l) (heap e)); [|done].
    by intros [= <-].
  - intros t [m b] e Hown. simpl in *.
    exists (<[m := None]> (heap e)).
    split_and!; [| done | | done |].
    + rewrite release_eq. simpl. by rewrite (owner_unlock_owned _ _ _ Hown).
    + rewrite acquire_eq. simpl.
      rewrite owner_lock_free by apply lookup_insert_eq.
      by rewrite insert_insert_eq, insert_id.
    + intros h Hrtc. rewrite acquire_eq. simpl.
      assert (is_Some (h !! m)) as [o Ho].
      { eapply others_steps_alive; [done|]. by rewrite lookup_insert_eq. }
      assert (¬ owns t m h) as Hnown.
      { rewrite <-(others_steps_owns _ _ _ _ Hrtc). unfold owns.
        by rewrite lookup_insert_eq. }
      destruct o as [o|].
      * right. rewrite (owner_lock_taken t o); [done..|].
        intros ->. by apply Hnown.
      * left. rewrite (owner_lock_free _ _ _ Ho).
        eexists. split; [done|]. apply lookup_insert_eq.
Qed.
End guard_on_owner_mutex.

(** ** Mutual exclusion: counting under the guard *)

Section counting.
Variable mtx : mutex_ref.
Implicit Types (t : thread) (ts : tstate) (g : global) (sched : list thread).

Lemma sum_list_with_insert {A} (f : A → nat) (l : list A) (i : nat) (x : A) :
  l !! i = Some x →
  ∀ y, sum_list_with f (<[i := y]> l) + f x = sum_list_with f l + f y.
Proof.
  revert i. induction l as [|a l IH]; intros [|i] Hi y; simplify_eq/=.
  - lia.
  - specialize (IH _ Hi y). lia.
Qed.

Lemma sum_list_with_replicate {A} (f : A → nat) (n : nat) (x : A) :
  sum_list_with f (replicate n x) = n * f x.
Proof. induction n as [|n IH]; simpl; [done | by rewrite IH]. Qed.

Lemma forallb_false_lookup {A} (f : A → bool) (l : list A) :
  forallb f l = false → ∃ i x, l !! i = Some x ∧ f x = false.
Proof.
  induction l as [|a l IH]; [done|]. simpl.
  destruct (f a) eqn:Hfa; simpl.
  - intros (i & x & ? & ?)%IH. by exists (S i), x.
  - intros _. by exists 0, a.
Qed.

Lemma forallb_true_lookup {A} (f : A → bool) (l : list A) i x :
  forallb f l = true → l !! i = Some x → f x = true.
Proof.
  revert i. induction l as [|a l IH]; intros [|i]; simpl; try done.
  - intros [? _]%andb_prop [= <-]. done.
  - intros [_ ?]%andb_prop. by apply IH.
Qed.

Lemma lookup_insert_thread (l : list tstate) t t' ts' ts'' :
  <[t := ts']> l !! t' = Some ts'' →
  (t' = t ∧ ts'' = ts') ∨ (t' ≠ t ∧ l !! t' = Some ts'').
Proof.
  intros Hl. destruct (decide (t' = t)) as [-> | Hne].
  - left. split; [done|].
    apply list_lookup_insert_Some in Hl as [(_ & ? & _) | [? _]]; done.
  - right. split; [done|]. by rewrite list_lookup_insert_ne in Hl.
Qed.

Lemma is_Some_lookup_insert (l : list tstate) t t' ts' :
  is_Some (l !! t') → is_Some (<[t := ts']> l !! t').
Proof.
  intros Hs. apply lookup_lt_is_Some. rewrite length_insert.
  by apply lookup_lt_is_Some.
Qed.

Lemma run_app autoLock sched1 sched2 g :
  run mtx autoLock (sched1 ++ sched2) g =
    run mtx autoLock sched1 g ≫= run mtx autoLock sched2.
Proof.
  revert g. induction sched1 as [|t sched1 IH]; intros g; simpl; [done|].
  destruct (thread_step mtx autoLock t g); by rewrite ?IH.
Qed.

Lemma init_counting_inv N iters :
  counting_inv mtx (N * iters) (init mtx N iters).
Proof.
  unfold counting_inv, init, Mutex_ctor. simpl. split_and!.
  - exists None. rewrite lookup_insert_eq. by split.
  - intros t ts [-> _]%lookup_replicate.
    unfold thread_ok, owns, next_iteration. rewrite lookup_insert_eq.
    destruct iters; simpl; split_and!; try done; by split.
  - rewrite sum_list_with_replicate. unfold pending, next_iteration.
    by destruct iters.
Qed.

(** One step of a thread keeps the invariant and uses up one of the steps
    left; no step goes wrong. *)
Lemma thread_step_inv total t g :
  counting_inv mtx total g →
  match thread_step mtx true t g with
  | Stepped g' => counting_inv mtx total g' ∧ S (steps_left g') = steps_left g
  | Waiting => True
  | Crashed => False
  end.
Proof.
  intros ((o & Hmtx & Hown) & Hthreads & Hsum).
  unfold thread_step. destruct (g_threads g !! t) as [ts|] eqn:Hts; [|done].
  pose proof (Hthreads _ _ Hts) as (Hcs & Hlock & Htmp & Hfin).
  pose proof (sum_list_with_insert pending _ _ _ Hts) as Hpend.
  pose proof (sum_list_with_insert weight _ _ _ Hts) as Hwt.
  assert (∀ t' ts', t' ≠ t → g_threads g !! t' = Some ts' →
            owns t mtx (heap (g_env g)) → in_cs (t_pc ts') = false) as Hexcl.
  { intros t' ts' Hne Hts' Hmine.
    destruct (Hthreads _ _ Hts') as (Hcs' & _).
    destruct (in_cs (t_pc ts')); [|done].
    destruct Hcs' as [Hcs' _]. specialize (Hcs' eq_refl).
    unfold owns in *. congruence. }
  destruct (t_pc ts) eqn:Hpc; simpl in Hcs, Hlock.
  - (* the constructor *)
    assert (¬ owns t mtx (heap (g_env g))) as Hnown.
    { intros ?%Hcs. done. }
    rewrite Lock_ctor_eq, acquire_eq. simpl. unfold owner_lock. rewrite Hmtx.
    destruct o as [o|].
    { case_decide; [|done]. subst o. by destruct Hnown. }
    simpl. unfold counting_inv, steps_left. simpl. split_and!.
    + exists (Some t). rewrite lookup_insert_eq. split; [done|].
      intros ? [= <-]. apply is_Some_lookup_insert. eauto.
    + intros t' ts' [[-> ->] | [Hne Hts']]%lookup_insert_thread.
      * unfold thread_ok, owns. simpl. rewrite lookup_insert_eq.
        split_and!; try done. split; [done|]. intros ?%Hfin. done.
      * destruct (Hthreads _ _ Hts') as (Hcs' & Hlock' & Htmp' & Hfin').
        assert (in_cs (t_pc ts') = false) as Hout.
        { destruct (in_cs (t_pc ts')); [|done].
          destruct Hcs' as [Hcs' _]. specialize (Hcs' eq_refl).
          unfold owns in Hcs'. congruence. }
        unfold thread_ok, owns. rewrite lookup_insert_eq, Hout.
        split_and!; try done.
        split; [done|]. intros [= ?]. done.
    + specialize (Hpend (mkT AtRead (Some (mkLock mtx true)) (t_tmp ts) (t_left ts))).
      unfold pending in Hpend at 2 4. rewrite Hpc in Hpend. simpl in Hpend. lia.
    + specialize (Hwt (mkT AtRead (Some (mkLock mtx true)) (t_tmp ts) (t_left ts))).
      unfold weight in Hwt at 2 4. rewrite Hpc in Hwt. simpl in Hwt.
      assert (t_left ts ≠ 0) by (intros ?%Hfin; done). lia.
  - (* reading the counter *)
    assert (owns t mtx (heap (g_env g))) as Hmine by by apply Hcs.
    unfold counting_inv, steps_left. simpl. split_and!.
    + exists o. split; [done|]. intros t' Ht'. apply is_Some_lookup_insert. eauto.
    + intros t' ts' [[-> ->] | [Hne Hts']]%lookup_insert_thread.
      * unfold thread_ok. simpl. split_and!; try done.
        split; [done|]. intros ?%Hfin. done.
      * apply Hthreads, Hts'.
    + specialize (Hpend (mkT AtWrite (t_lock ts) (g_counter g) (t_left ts))).
      unfold pending in Hpend at 2 4. rewrite Hpc in Hpend. simpl in Hpend. lia.
    + specialize (Hwt (mkT AtWrite (t_lock ts) (g_counter g) (t_left ts))).
      unfold weight in Hwt at 2 4. rewrite Hpc in Hwt. simpl in Hwt.
      assert (t_left ts ≠ 0) by (intros ?%Hfin; done). lia.
  - (* writing the counter *)
    assert (owns t mtx (heap (g_env g))) as Hmine by by apply Hcs.
    unfold counting_inv, steps_left. simpl. split_and!.
    + exists o. split; [done|]. intros t' Ht'. apply is_Some_lookup_insert. eauto.
    + intros t' ts' [[-> ->] | [Hne Hts']]%lookup_insert_thread.
      * unfold thread_ok. simpl. split_and!; try done.
        split; [done|]. intros ?%Hfin. done.
      * destruct (Hthreads _ _ Hts') as (Hcs' & Hlock' & Htmp' & Hfin').
        pose proof (Hexcl _ _ Hne Hts' Hmine) as Hout.
        unfold thread_ok. split_and!; try done.
        intros Hw. rewrite Hw in Hout. done.
    + specialize (Hpend (mkT AtDtor (t_lock ts) (t_tmp ts) (t_left ts))).
      unfold pending in Hpend at 2 4. rewrite Hpc in Hpend. simpl in Hpend.
      assert (t_left ts ≠ 0) by (intros ?%Hfin; done).
      pose proof (Htmp eq_refl). lia.
    + specialize (Hwt (mkT AtDtor (t_lock ts) (t_tmp ts) (t_left ts))).
      unfold weight in Hwt at 2 4. rewrite Hpc in Hwt. simpl in Hwt.
      assert (t_left ts ≠ 0) by (intros ?%Hfin; done). lia.
  - (* the destructor *)
    assert (owns t mtx (heap (g_env g))) as Hmine by by apply Hcs.
    rewrite (Hlock eq_refl). rewrite Lock_dtor_eq. simpl.
    rewrite (owner_unlock_owned _ _ _ Hmine).
    unfold counting_inv, steps_left. simpl. split_and!.
    + exists None. rewrite lookup_insert_eq. by split.
    + intros t' ts' [[-> ->] | [Hne Hts']]%lookup_insert_thread.
      * unfold thread_ok, owns, next_iteration. rewrite lookup_insert_eq.
        destruct (pred (t_left ts)); simpl; split_and!; try done; by split.
      * destruct (Hthreads _ _ Hts') as (Hcs' & Hlock' & Htmp' & Hfin').
        pose proof (Hexcl _ _ Hne Hts' Hmine) as Hout.
        unfold thread_ok, owns. rewrite lookup_insert_eq, Hout.
        split_and!; done.
    + specialize (Hpend (next_iteration (pred (t_left ts)))).
      unfold pending in Hpend at 2 4. rewrite Hpc in Hpend.
      unfold next_iteration in Hpend at 2.
      destruct (pred (t_left ts)) eqn:Hp; simpl in Hpend; lia.
    + specialize (Hwt (next_iteration (pred (t_left ts)))).
      unfold weight in Hwt at 2 4. rewrite Hpc in Hwt.
      unfold next_iteration in Hwt at 2.
      assert (t_left ts ≠ 0) by (intros ?%Hfin; done).
      destruct (pred (t_left ts)) eqn:Hp; simpl in Hwt; lia.
  - done.
Qed.

(** At most one thread is between the constructor and the destructor of
    its guard. *)
Lemma counting_mutual_exclusion total g t1 t2 ts1 ts2 :
  counting_inv mtx total g →
  g_threads g !! t1 = Some ts1 → g_threads g !! t2 = Some ts2 →
  in_cs (t_pc ts1) = true → in_cs (t_pc ts2) = true →
  t1 = t2.
Proof.
  intros (_ & Hthreads & _) Hts1 Hts2 Hcs1 Hcs2.
  destruct (Hthreads _ _ Hts1) as ([Hown1 _] & _).
  destruct (Hthreads _ _ Hts2) as ([Hown2 _] & _).
  specialize (Hown1 Hcs1). specialize (Hown2 Hcs2).
  unfold owns in *. congruence.
Qed.

Lemma run_inv total sched g :
  counting_inv mtx total g →
  ∃ g', run mtx true sched g = Some g' ∧ counting_inv mtx total g'.
Proof.
  revert g. induction sched as [|t sched IH]; intros g Hinv; simpl; [eauto|].
  pose proof (thread_step_inv total t g Hinv) as Hstep.
  destruct (thread_step mtx true t g) as [g'| |]; [|eauto|done].
  destruct Hstep as [Hinv' _]. eauto.
Qed.

(** When every thread is through, nothing is owed and the counter is the
    total. *)
Lemma finished_counter total g :
  counting_inv mtx total g → all_finished g = true → g_counter g = total.
Proof.
  intros (_ & Hthreads & Hsum) Hfin.
  assert (sum_list_with pending (g_threads g) = 0) as Hzero; [|lia].
  unfold all_finished in Hfin.
  assert (∀ t ts, g_threads g !! t = Some ts → pending ts = 0) as Hnone.
  { intros t ts Hts.
    pose proof (forallb_true_lookup _ _ _ _ Hfin Hts) as Hf.
    apply bool_decide_eq_true in Hf.
    destruct (Hthreads _ _ Hts) as (_ & _ & _ & Hleft).
    unfold pending. rewrite Hf. by apply Hleft. }
  clear -Hnone. induction (g_threads g) as [|ts l IH]; simpl; [done|].
  rewrite (Hnone 0 ts eq_refl), IH; [done|].
  intros t ts' Hts'. by apply (Hnone (S t)).
Qed.

(** As long as some thread is not through, some thread can step: the
    holder of the mutex if there is one, any unfinished thread if not. *)
Lemma counting_progress total g :
  counting_inv mtx total g → all_finished g = false →
  ∃ t g', thread_step mtx true t g = Stepped g'.
Proof.
  intros Hinv Hnf. pose proof Hinv as ((o & Hmtx & Hown) & Hthreads & _).
  destruct o as [t|].
  - destruct (Hown t eq_refl) as [ts Hts].
    pose proof (thread_step_inv total t g Hinv) as Hstep.
    destruct (Hthreads _ _ Hts) as ([_ Hcs] & Hlock & _).
    specialize (Hcs Hmtx). specialize (Hlock Hcs).
    exists t. unfold thread_step in *. rewrite Hts in *.
    destruct (t_pc ts); try done; eauto.
    rewrite Hlock in *. rewrite Lock_dtor_eq in *. simpl in *.
    rewrite (owner_unlock_owned t mtx _ Hmtx) in *. eauto.
  - apply forallb_false_lookup in Hnf as (t & ts & Hts & Hf).
    apply bool_decide_eq_false in Hf.
    destruct (Hthreads _ _ Hts) as ([Hcs _] & _).
    exists t. unfold thread_step. rewrite Hts.
    destruct (t_pc ts); try done; eauto.
    + rewrite Lock_ctor_eq, acquire_eq. simpl.
      rewrite (owner_lock_free _ _ _ Hmtx). eauto.
    + specialize (Hcs eq_refl). unfold owns in Hcs. congruence.
Qed.

(** Every execution can be carried on until all threads are through. *)
Lemma counting_completes total g :
  counting_inv mtx total g →
  ∃ sched g', run mtx true sched g = Some g' ∧ all_finished g' = true
              ∧ counting_inv mtx total g'.
Proof.
  remember (steps_left g) as n eqn:Hn. revert g Hn.
  induction n as [n IH] using lt_wf_ind. intros g -> Hinv.
  destruct (all_finished g) eqn:Hfin.
  - exists [], g. by split_and!.
  - destruct (counting_progress _ _ Hinv Hfin) as (t & g1 & Hstep).
    pose proof (thread_step_inv total t g Hinv) as Hkeep.
    rewrite Hstep in Hkeep. destruct Hkeep as [Hinv1 Hless].
    destruct (IH (steps_left g1) ltac:(lia) g1 eq_refl Hinv1)
      as (sched & g' & Hrun & Hdone & Hinv').
    exists (t :: sched), g'. simpl. rewrite Hstep. by split_and!.
Qed.

(** C9: [N] threads each run [iters] times the block
    [{ Lock lock (mtx); counter += 1; }] on one mutex and one counter,
    the increment being a read and a later write.  Whatever the
    interleaving [sched], the execution does not go wrong; if it leaves
    every thread through, the counter is exactly [N * iters]; and it can
    always be carried on to such an end, where the counter is
    [N * iters]. *)
Theorem guarded_increments_are_not_lost N iters sched :
  ∃ g, run mtx true sched (init mtx N iters) = Some g
       ∧ (all_finished g = true → g_counter g = N * iters)
       ∧ ∃ sched' g',
           run mtx true (sched ++ sched') (init mtx N iters) = Some g'
           ∧ all_finished g' = true
           ∧ g_counter g' = N * iters.
Proof.
  destruct (run_inv _ sched _ (init_counting_inv N iters)) as (g & Hrun & Hinv).
  exists g. split_and!; [done | by apply finished_counter |].
  destruct (counting_completes _ _ Hinv) as (sched' & g' & Hrun' & Hdone & Hinv').
  exists sched', g'. rewrite run_app, Hrun. simpl.
  split_and!; [done..|]. by apply (finished_counter _ _ Hinv').
Qed.
End counting.

(** ** The block never leaks the mutex *)

Section no_leak.
Implicit Types (t : thread) (m : mutex_ref) (l : Lock).
Implicit Types (e : env (H := mutex_store)).

Lemma owner_lock_never_throws t m (h : mutex_store) :
  owner_lock t m h ≠ LockThrows.
Proof.
  unfold owner_lock. destruct (h !! m) as [[o|]|]; [case_decide| |]; done.
Qed.

(** On the modelled primitive: if the body leaves the guard on its mutex
    with the flag telling the truth, then however the block is left, the
    thread does not have the mutex afterwards. *)
Lemma critical_section_no_leak t m autoLock body e e' :
  (∀ s1, Lock_ctor t m autoLock e = Done () s1 →
         ∀ l2 e2, exits (body s1) (l2, e2) →
                  _mutex l2 = m ∧ guard_inv t l2 (heap e2)) →
  exits (critical_section t m autoLock body e) e' →
  ¬ owns t m (heap e').
Proof.
  intros Hbody [(_ & Hthrows & _) | (s1 & l2 & e2 & Hc & Hb & Hd & _)]%critical_section_exit_inv.
  { by apply owner_lock_never_throws in Hthrows. }
  destruct (Hbody _ Hc _ _ Hb) as [<- [_ Hiff]].
  rewrite Lock_dtor_eq in Hd. destruct (_locked l2).
  - assert (owns t (_mutex l2) (heap e2)) as Hown by by apply Hiff.
    simpl in Hd. rewrite (owner_unlock_owned _ _ _ Hown) in Hd.
    injection Hd as <-. unfold owns. simpl. by rewrite lookup_insert_eq.
  - injection Hd as <-. intros Hown%Hiff. done.
Qed.
End no_leak.

(** ** The claims at concrete inputs *)

Section examples.
(** Thread 1 opens a block on mutex 7.  Whether the body falls through,
    returns early or throws, the block ends that way with the mutex locked
    once and unlocked once. *)
Lemma Lock_dtor_on_every_exit_witness :
  let e1 := mkEnv (heap (env_held_by 7 1)) [EvLock 7] in
  let e' := mkEnv (Mutex_ctor 7 ∅) [EvLock 7; EvUnlock 7] in
  Lock_dtor 1 (mkLock 7 true, env_held_by 7 1)
    = Done () (mkLock 7 true, mkEnv (Mutex_ctor 7 ∅) [EvUnlock 7])
  ∧ unlock_count 7 [EvUnlock 7] = 1
  ∧ Lock_ctor 1 7 true (env_with_mutex 7) = Done () (mkLock 7 true, e1)
  ∧ critical_section 1 7 true (mret FallsThrough) (env_with_mutex 7)
      = Done FallsThrough e'
  ∧ critical_section 1 7 true returning_body (env_with_mutex 7)
      = Done Returns e'
  ∧ critical_section 1 7 true throwing_body (env_with_mutex 7) = Threw e'
  ∧ exits (critical_section 1 7 true throwing_body (env_with_mutex 7)) e'
  ∧ ∃ s1 l2 e2,
      Lock_ctor 1 7 true (env_with_mutex 7) = Done () s1
      ∧ exits (throwing_body s1) (l2, e2)
      ∧ Lock_dtor 1 (l2, e2) = Done () (l2, e')
      ∧ calls e' = calls e2 ++ (if _locked l2 then [EvUnlock (_mutex l2)] else []).
Proof.
  intros e1 e'.
  assert (Lock_dtor 1 (mkLock 7 true, env_held_by 7 1)
          = Done () (mkLock 7 true, mkEnv (Mutex_ctor 7 ∅) [EvUnlock 7])) as Hd
    by reflexivity.
  assert (Lock_ctor 1 7 true (env_with_mutex 7) = Done () (mkLock 7 true, e1))
    as Hc by reflexivity.
  assert (exits (critical_section 1 7 true throwing_body (env_with_mutex 7)) e')
    as Hex by (right; reflexivity).
  destruct (Lock_dtor_on_every_exit (H := mutex_store) 1)
    as (_ & Hcount & Hscope & Hruns).
  destruct (Hruns 7 true (mret FallsThrough) _ _ (mkLock 7 true) e1 Hc)
    as [Hfalls _].
  destruct (Hruns 7 true returning_body _ _ (mkLock 7 true) e1 Hc)
    as [Hreturns _].
  destruct (Hruns 7 true throwing_body _ _ (mkLock 7 true) e1 Hc)
    as [_ Hthrows].
  split_and!.
  - exact Hd.
  - exact (proj2 (Hcount _ _ _ Hd)).
  - exact Hc.
  - exact (Hfalls FallsThrough eq_refl).
  - exact (Hreturns Returns eq_refl).
  - exact (Hthrows eq_refl).
  - exact Hex.
  - destruct (Hscope 7 true throwing_body _ _ Hex) as [(_ & Hthr & _) | Hrun].
    + discriminate Hthr.
    + exact Hrun.
Defined.

(** The same block left by [return]. *)
Example critical_section_returning :
  critical_section 1 7 true returning_body (env_with_mutex 7)
  = Done Returns (mkEnv (Mutex_ctor 7 ∅) [EvLock 7; EvUnlock 7]).
Proof. reflexivity. Qed.

(** Thread 1 constructs an auto-locking guard on the fresh mutex 7. *)
Lemma Lock_ctor_autoLock_holds_witness :
  heap (env_with_mutex 7) !! 7 = Some None
  ∧ (∃ e', Lock_ctor 1 7 true (env_with_mutex 7) = Done () (mkLock 7 true, e')
           ∧ locked (mkLock 7 true, e') = Done true (mkLock 7 true, e')
           ∧ owns 1 7 (heap e')
           ∧ ∀ h, rtc (others_step 1) (heap e') h →
                  owns 1 7 h ∧ ∀ t', t' ≠ 1 → Mutex_lock t' 7 h = LockBlocks)
  ∧ Lock_ctor 1 7 true (env_with_mutex 7)
      = Done () (mkLock 7 true, mkEnv (heap (env_held_by 7 1)) [EvLock 7])
  ∧ locked (mkLock 7 true, mkEnv (heap (env_held_by 7 1)) [EvLock 7])
      = Done true (mkLock 7 true, mkEnv (heap (env_held_by 7 1)) [EvLock 7]).
Proof.
  destruct Lock_ctor_autoLock_holds as [Hany Hmodel].
  assert (Lock_ctor 1 7 true (env_with_mutex 7)
          = Done () (mkLock 7 true, mkEnv (heap (env_held_by 7 1)) [EvLock 7]))
    as Hc by reflexivity.
  split_and!.
  - reflexivity.
  - apply Hmodel. reflexivity.
  - exact Hc.
  - exact (proj1 (proj2 (Hany _ _ 1 7 _ _ Hc))).
Defined.

(** A held guard of thread 1 on mutex 7 is released; a guard is
    constructed held on the fresh mutex; thread 2 takes the mutex while
    an unheld guard of thread 1 looks on. *)
Lemma guard_follows_state_machine_witness :
  guard_inv 1 (mkLock 7 true) (heap (env_held_by 7 1))
  ∧ spec_step (state_of (mkLock 7 true)) OpRelease = Some Unheld
  ∧ (∃ s', run_op 1 OpRelease (mkLock 7 true, env_held_by 7 1) = Done () s'
           ∧ state_of s'.1 = Unheld
           ∧ guard_inv 1 s'.1 (heap s'.2))
  ∧ (∃ s', Lock_ctor 1 7 true (env_with_mutex 7) = Done () s'
           ∧ state_of s'.1 = spec_init true
           ∧ guard_inv 1 s'.1 (heap s'.2))
  ∧ others_step 1 (heap (env_with_mutex 7)) (heap (env_held_by 7 2))
  ∧ guard_inv 1 (mkLock 7 false) (heap (env_held_by 7 2)).
Proof.
  destruct (guard_follows_state_machine 1) as (Hinit & Hstep & _ & Hothers).
  assert (guard_inv 1 (mkLock 7 true) (heap (env_held_by 7 1))) as Hinv.
  { split; [by eexists | split; reflexivity]. }
  assert (guard_inv 1 (mkLock 7 false) (heap (env_with_mutex 7))) as Hinv0.
  { split; [by eexists | split; discriminate]. }
  assert (others_step 1 (heap (env_with_mutex 7)) (heap (env_held_by 7 2)))
    as Hother.
  { exists 2, 7. split; [discriminate | left; reflexivity]. }
  split_and!.
  - exact Hinv.
  - reflexivity.
  - destruct (Hstep OpRelease _ (env_held_by 7 1) Unheld Hinv eq_refl)
      as [Hdone Hret].
    assert (OpRelease ≠ OpAcquire) as Hne by discriminate.
    destruct (Hret (or_introl Hne)) as [s' Hs'].
    destruct (Hdone s' Hs') as (_ & _ & Hkeep & _).
    exists s'. split; [exact Hs' | apply Hkeep; discriminate].
  - eexists. split; [reflexivity|].
    apply (Hinit 7 true (env_with_mutex 7) _).
    + by eexists.
    + discriminate.
    + reflexivity.
  - exact Hother.
  - exact (Hothers _ _ _ Hinv0 Hother).
Defined.

(** Thread 1 releases mutex 7 and takes it again. *)
Lemma release_then_acquire_witness :
  owns 1 7 (heap (env_held_by 7 1))
  ∧ ∃ h1,
      release 1 (mkLock 7 true, env_held_by 7 1)
        = Done () (mkLock 7 false, mkEnv h1 [EvUnlock 7])
      ∧ locked (mkLock 7 false, mkEnv h1 [EvUnlock 7])
        = Done false (mkLock 7 false, mkEnv h1 [EvUnlock 7])
      ∧ acquire 1 (mkLock 7 false, mkEnv h1 [EvUnlock 7])
        = Done () (mkLock 7 true,
                   mkEnv (heap (env_held_by 7 1)) [EvUnlock 7; EvLock 7]).
Proof.
  destruct release_then_acquire as [Hany Hmodel].
  assert (owns 1 7 (heap (env_held_by 7 1))) as Hown by reflexivity.
  split; [exact Hown|].
  destruct (Hmodel 1 (mkLock 7 true) (env_held_by 7 1) Hown)
    as (h1 & Hr & _ & Ha & _).
  exists h1. split_and!; [exact Hr | | exact Ha].
  exact (proj1 (Hany _ _ 1 _ _ _ Hr)).
Defined.

(** Thread 1 tries to take mutex 7 while thread 2 has it. *)
Lemma failed_lock_keeps_flag_witness :
  let e1 := mkEnv (heap (env_held_by 7 2)) [EvLock 7] in
  Mutex_lock 1 7 (heap (env_held_by 7 2)) = LockBlocks
  ∧ stopped_at (acquire 1 (mkLock 7 false, env_held_by 7 2)) (mkLock 7 false, e1)
  ∧ stopped_at (Lock_ctor 1 7 true (env_held_by 7 2)) (mkLock 7 false, e1)
  ∧ stopped_at (critical_section 1 7 true returning_body (env_held_by 7 2)) e1
  ∧ Lock_dtor 1 (mkLock 7 false, e1) = Done () (mkLock 7 false, e1).
Proof.
  intros e1.
  assert (Mutex_lock 1 7 (heap (env_held_by 7 2)) = LockBlocks) as Hb
    by reflexivity.
  destruct (failed_lock_keeps_flag 1 (mkLock 7 false) (env_held_by 7 2)
              (or_introl Hb)) as (Ha & Hc & Hs & Hd & _).
  split_and!; [exact Hb | exact Ha | exact Hc | exact (Hs _) | exact (Hd eq_refl)].
Defined.

(** Two threads, two increments each, interleaved: the counter ends
    at 4. *)
Lemma guarded_increments_are_not_lost_witness :
  ∃ g, run 0 true interleaved_schedule (init 0 2 2) = Some g
       ∧ all_finished g = true
       ∧ g_counter g = 2 * 2.
Proof.
  destruct (guarded_increments_are_not_lost 0 2 2 interleaved_schedule)
    as (g & Hrun & Hfin & _).
  exists g. split; [exact Hrun|].
  assert (all_finished g = true) as Hall.
  { vm_compute in Hrun. injection Hrun as <-. reflexivity. }
  split; [exact Hall | exact (Hfin Hall)].
Defined.

(** Without the lock the same threads lose an update: with
    [autoLock = false], two threads that each increment once in lock
    step leave the counter at 1. *)
Example unguarded_increment_is_lost :
  ∃ g, run 0 false lock_step_schedule (init 0 2 1) = Some g
       ∧ all_finished g = true
       ∧ g_counter g = 1.
Proof. eexists. split; [reflexivity|]. split; reflexivity. Qed.

(** What the guard does not check: releasing an unheld guard, and
    acquiring twice, reach the primitive and are not defined there. *)
Example release_while_unheld :
  release 1 (mkLock 7 false, env_with_mutex 7) = Undefined.
Proof. reflexivity. Qed.

Example acquire_twice :
  acquire 1 (mkLock 7 true, env_held_by 7 1) = Undefined.
Proof. reflexivity. Qed.

Example deferred_guard_leaves_mutex_free :
  critical_section 2 7 false returning_body (env_with_mutex 7)
  = Done Returns (env_with_mutex 7).
Proof. reflexivity. Qed.
End examples.

(** ** Using a guard: sequences of calls, whole blocks *)

Section guard_usage.
Context {H : Type} `{!MutexImpl H}.
Implicit Types (t : thread) (m : mutex_ref) (this l : Lock) (e : env (H := H)).
Implicit Types (cs : list call) (b : bool).

Lemma do_calls_cons t c cs s :
  do_calls t (c :: cs) s =
    match do_call t c s with
    | Done _ s' => do_calls t cs s'
    | Blocked s' => Blocked s'
    | Threw s' => Threw s'
    | Undefined => Undefined
    end.
Proof. reflexivity. Qed.

(** One statement: when it returns, and when it does not. *)
Lemma do_call_done_inv t c this e l' e' :
  do_call t c (this, e) = Done () (l', e') →
  l' = mkLock (_mutex this) (flag_step (_locked this) c)
  ∧ calls e' = calls e ++ event_of (_mutex this) c.
Proof.
  destruct c; simpl.
  - rewrite acquire_eq. destruct (Mutex_lock t (_mutex this) (heap e)); try done.
    by intros [= <- <-].
  - rewrite release_eq. destruct (Mutex_unlock t (_mutex this) (heap e)); try done.
    by intros [= <- <-].
  - intros [= <- <-]. destruct this. simpl. by rewrite app_nil_r.
Qed.

Lemma do_call_stopped_inv t c this e s' :
  stopped_at (do_call t c (this, e)) s' →
  c = CallAcquire
  ∧ s' = (this, mkEnv (heap e) (calls e ++ [EvLock (_mutex this)]))
  ∧ (Mutex_lock t (_mutex this) (heap e) = LockBlocks
     ∨ Mutex_lock t (_mutex this) (heap e) = LockThrows).
Proof.
  destruct c; simpl.
  - rewrite acquire_eq.
    destruct (Mutex_lock t (_mutex this) (heap e));
      intros [Hs | Hs]; simplify_eq; eauto.
  - rewrite release_eq.
    destruct (Mutex_unlock t (_mutex this) (heap e)); by intros [? | ?].
  - by intros [? | ?].
Qed.

Lemma do_calls_done_inv t cs this e l' e' :
  do_calls t cs (this, e) = Done () (l', e') →
  l' = mkLock (_mutex this) (flag_after (_locked this) cs)
  ∧ calls e' = calls e ++ events_of (_mutex this) cs.
Proof.
  revert this e. induction cs as [|c cs IH]; intros this e.
  - intros [= <- <-]. destruct this. simpl. by rewrite app_nil_r.
  - rewrite do_calls_cons.
    destruct (do_call t c (this, e)) as [[] [l1 e1]| | |] eqn:Hc; try done.
    apply do_call_done_inv in Hc as [-> Hlog1].
    intros [-> Hlog]%IH. simpl in *. split; [done|].
    rewrite Hlog, Hlog1. unfold events_of. simpl. by rewrite app_assoc.
Qed.

Lemma do_calls_stopped_inv t cs this e s' :
  stopped_at (do_calls t cs (this, e)) s' →
  ∃ cs1 cs2 e1,
    cs = cs1 ++ CallAcquire :: cs2
    ∧ do_calls t cs1 (this, e) = Done () (s'.1, e1)
    ∧ s'.2 = mkEnv (heap e1) (calls e1 ++ [EvLock (_mutex this)])
    ∧ (Mutex_lock t (_mutex this) (heap e1) = LockBlocks
       ∨ Mutex_lock t (_mutex this) (heap e1) = LockThrows).
Proof.
  revert this e. induction cs as [|c cs IH]; intros this e.
  - by intros [? | ?].
  - rewrite do_calls_cons.
    destruct (do_call t c (this, e)) as [[] [l1 e1]| s1 | s1 |] eqn:Hc.
    + intros (cs1 & cs2 & e2 & -> & Hrun & Henv & Hfail)%IH.
      pose proof (do_call_done_inv _ _ _ _ _ _ Hc) as [Hl1 _].
      assert (_mutex l1 = _mutex this) as Hm by by subst l1.
      rewrite Hm in Henv, Hfail.
      exists (c :: cs1), cs2, e2. split_and!; try done.
      by rewrite do_calls_cons, Hc.
    + intros Hs. assert (s1 = s') as -> by (destruct Hs; congruence).
      assert (stopped_at (do_call t c (this, e)) s') as Hstop
        by (rewrite Hc; by left).
      apply do_call_stopped_inv in Hstop as (-> & -> & Hfail).
      exists [], cs, e. by split_and!.
    + intros Hs. assert (s1 = s') as -> by (destruct Hs; congruence).
      assert (stopped_at (do_call t c (this, e)) s') as Hstop
        by (rewrite Hc; by right).
      apply do_call_stopped_inv in Hstop as (-> & -> & Hfail).
      exists [], cs, e. by split_and!.
    + by intros [? | ?].
Qed.

(** *** Counting the calls in a log *)

Lemma lock_count_app m (log1 log2 : list event) :
  lock_count m (log1 ++ log2) = lock_count m log1 + lock_count m log2.
Proof. unfold lock_count. by rewrite filter_app, length_app. Qed.

Lemma unlock_count_app m (log1 log2 : list event) :
  unlock_count m (log1 ++ log2) = unlock_count m log1 + unlock_count m log2.
Proof. unfold unlock_count. by rewrite filter_app, length_app. Qed.

Lemma lock_count_single m ev :
  lock_count m [ev] = if is_lock_of m ev then 1 else 0.
Proof. exact (lock_count_snoc m [] ev). Qed.

Lemma unlock_count_single m ev :
  unlock_count m [ev] = if is_unlock_of m ev then 1 else 0.
Proof. exact (unlock_count_snoc m [] ev). Qed.

Lemma counts_event_of m c :
  lock_count m (event_of m c) = (if c is CallAcquire then 1 else 0)
  ∧ unlock_count m (event_of m c) = (if c is CallRelease then 1 else 0).
Proof.
  destruct c; simpl; split; try done;
    rewrite ?lock_count_single, ?unlock_count_single; simpl;
    by rewrite ?bool_decide_eq_true_2.
Qed.

(** Under the caller contract the calls of a sequence pair up, but for the
    one [lock] that is still outstanding when the flag is set. *)
Lemma events_of_balance m b cs :
  obeys b cs = true →
  lock_count m (events_of m cs) + (if b then 1 else 0)
  = unlock_count m (events_of m cs) + (if flag_after b cs then 1 else 0).
Proof.
  revert b. induction cs as [|c cs IH]; intros b Hob; [done|].
  unfold events_of in *. simpl.
  rewrite lock_count_app, unlock_count_app.
  destruct (counts_event_of m c) as [-> ->].
  destruct c; simpl in Hob.
  - apply andb_prop in Hob as [Hb Hob]. specialize (IH _ Hob).
    destruct b; [done|]. simpl in *. lia.
  - apply andb_prop in Hob as [Hb Hob]. specialize (IH _ Hob).
    destruct b; [|done]. simpl in *. lia.
  - specialize (IH _ Hob). simpl in *. lia.
Qed.

Lemma events_of_on m cs :
  Forall (λ ev, mutex_of ev = m) (events_of m cs)
  ∧ length (events_of m cs) ≤ length cs.
Proof.
  induction cs as [|c cs [IH1 IH2]]; [by split|].
  unfold events_of in *. simpl. rewrite Forall_app, length_app. split.
  - split; [|done]. destruct c; simpl; by repeat constructor.
  - destruct c; simpl; lia.
Qed.

(** *** What ends up in the log *)

Lemma logged_on_refl m n e : logged_on m n e e.
Proof. exists []. rewrite app_nil_r. split_and!; [done | constructor | simpl; lia]. Qed.

Lemma logged_on_trans m n1 n2 e e1 e2 :
  logged_on m n1 e e1 → logged_on m n2 e1 e2 → logged_on m (n1 + n2) e e2.
Proof.
  intros (evs1 & Hl1 & Hon1 & Hn1) (evs2 & Hl2 & Hon2 & Hn2).
  exists (evs1 ++ evs2). rewrite Hl2, Hl1, app_assoc, Forall_app, length_app.
  split_and!; [done..|lia].
Qed.

Lemma logged_on_mono m n1 n2 e e1 :
  n1 ≤ n2 → logged_on m n1 e e1 → logged_on m n2 e e1.
Proof. intros Hle (evs & ? & ? & ?). exists evs. split_and!; [done..|lia]. Qed.

Lemma logged_on_one m ev e h :
  mutex_of ev = m → logged_on m 1 e (mkEnv h (calls e ++ [ev])).
Proof. intros Hm. exists [ev]. split_and!; [done | by repeat constructor | done]. Qed.

Lemma Lock_ctor_logged t m autoLock e l1 e1 :
  final_state (Lock_ctor t m autoLock e) = Some (l1, e1) →
  _mutex l1 = m ∧ logged_on m 1 e e1.
Proof.
  rewrite Lock_ctor_eq. destruct autoLock.
  - rewrite acquire_eq. simpl.
    destruct (Mutex_lock t m (heap e)); simpl; intros [= <- <-];
      (split; [done | by apply logged_on_one]).
  - intros [= <- <-]. split; [done|]. apply logged_on_mono with 0; [lia|].
    apply logged_on_refl.
Qed.

Lemma Lock_dtor_logged t l e l' e' :
  final_state (Lock_dtor t (l, e)) = Some (l', e') →
  logged_on (_mutex l) 1 e e'.
Proof.
  rewrite Lock_dtor_eq. destruct (_locked l).
  - destruct (Mutex_unlock t (_mutex l) (heap e)); simpl; [|done].
    intros [= <- <-]. by apply logged_on_one.
  - intros [= <- <-]. apply logged_on_mono with 0; [lia|]. apply logged_on_refl.
Qed.

Lemma do_calls_logged t cs this e l' e' :
  final_state (do_calls t cs (this, e)) = Some (l', e') →
  _mutex l' = _mutex this ∧ logged_on (_mutex this) (length cs) e e'.
Proof.
  destruct (do_calls t cs (this, e)) as [[] s | s | s |] eqn:Hrun; simpl;
    intros [= ->]; try done.
  - apply do_calls_done_inv in Hrun as [-> Hlog]. split; [done|].
    destruct (events_of_on (_mutex this) cs) as [Hon Hlen].
    by exists (events_of (_mutex this) cs).
  - assert (stopped_at (do_calls t cs (this, e)) (l', e')) as Hstop
      by (rewrite Hrun; by left).
    apply do_calls_stopped_inv in Hstop as (cs1 & cs2 & e1 & -> & Hrun1 & He' & _).
    simpl in *. apply do_calls_done_inv in Hrun1 as [-> Hlog]. split; [done|].
    destruct (events_of_on (_mutex this) cs1) as [Hon Hlen].
    exists (events_of (_mutex this) cs1 ++ [EvLock (_mutex this)]).
    subst e'. simpl. rewrite Hlog, app_assoc, Forall_app, !length_app. simpl.
    split_and!; [done | done | by repeat constructor | lia].
  - assert (stopped_at (do_calls t cs (this, e)) (l', e')) as Hstop
      by (rewrite Hrun; by right).
    apply do_calls_stopped_inv in Hstop as (cs1 & cs2 & e1 & -> & Hrun1 & He' & _).
    simpl in *. apply do_calls_done_inv in Hrun1 as [-> Hlog]. split; [done|].
    destruct (events_of_on (_mutex this) cs1) as [Hon Hlen].
    exists (events_of (_mutex this) cs1 ++ [EvLock (_mutex this)]).
    subst e'. simpl. rewrite Hlog, app_assoc, Forall_app, !length_app. simpl.
    split_and!; [done | done | by repeat constructor | lia].
Qed.

Lemma final_state_leave c (o : outcome (Lock * env (H := H)) unit) :
  final_state (leave c o) = snd <$> final_state o.
Proof. by destruct o as [? [? ?] | [? ?] | [? ?] |]. Qed.

Lemma final_state_unwind (o : outcome (Lock * env (H := H)) unit) :
  final_state (unwind o) = snd <$> final_state o.
Proof. by destruct o as [? [? ?] | [? ?] | [? ?] |]. Qed.

(** *** Properties of call sequences and blocks *)

(** X1: a guard calls no primitive but its own, and makes at most one call
    per operation: however a block on the mutex at [m] runs the calls [cs]
    and however it ends or stops, the log grew by at most
    [length cs + 2] calls, every one of them on [m]. *)
Theorem guard_calls_only_its_mutex t m autoLock cs (c : completion) e e' :
  final_state (critical_section t m autoLock (do_calls t cs;; mret c) e) = Some e' →
  logged_on m (length cs + 2) e e'.
Proof.
  unfold critical_section.
  destruct (Lock_ctor t m autoLock e) as [[] [l1 e1] | [l1 e1] | [l1 e1] |] eqn:Hc;
    simpl; [| | |done];
    (assert (final_state (Lock_ctor t m autoLock e) = Some (l1, e1)) as Hf1
       by (by rewrite Hc));
    apply Lock_ctor_logged in Hf1 as [Hm1 Hl1];
    [|intros [= <-]; apply logged_on_mono with 1; [lia | done]..].
  unfold mbind, method_bind, comp_bind.
  destruct (do_calls t cs (l1, e1)) as [[] [l2 e2] | [l2 e2] | [l2 e2] |] eqn:Hb;
    simpl; [| | |done];
    (assert (final_state (do_calls t cs (l1, e1)) = Some (l2, e2)) as Hf2
       by (by rewrite Hb));
    apply do_calls_logged in Hf2 as [Hm2 Hl2]; rewrite Hm1 in Hm2, Hl2;
    pose proof (logged_on_trans _ _ _ _ _ _ Hl1 Hl2) as Hl12.
  - rewrite final_state_leave.
    destruct (final_state (Lock_dtor t (l2, e2))) as [[l3 e3]|] eqn:Hd; [|done].
    apply Lock_dtor_logged in Hd. rewrite Hm2 in Hd. intros [= <-].
    apply logged_on_mono with (1 + length cs + 1); [lia|].
    by apply logged_on_trans with e2.
  - intros [= <-]. apply logged_on_mono with (1 + length cs); [lia | done].
  - rewrite final_state_unwind.
    destruct (final_state (Lock_dtor t (l2, e2))) as [[l3 e3]|] eqn:Hd; [|done].
    apply Lock_dtor_logged in Hd. rewrite Hm2 in Hd. intros [= <-].
    apply logged_on_mono with (1 + length cs + 1); [lia|].
    by apply logged_on_trans with e2.
Qed.

(** X2: when a sequence of [acquire], [release] and [locked] calls
    returns, the guard still refers to the same mutex, its flag is the one
    the last [acquire] or [release] left (the flag it started with if there
    was none) -- it is no count -- and the log grew by exactly one [lock]
    per [acquire] and one [unlock] per [release], in order. *)
Theorem do_calls_flag_and_log t cs this e l' e' :
  do_calls t cs (this, e) = Done () (l', e') →
  l' = mkLock (_mutex this) (flag_after (_locked this) cs)
  ∧ locked (l', e') = Done (flag_after (_locked this) cs) (l', e')
  ∧ calls e' = calls e ++ events_of (_mutex this) cs.
Proof. intros [-> Hlog]%do_calls_done_inv. by split_and!. Qed.

(** X3: a sequence of calls can only stop (wait for ever, or be left by an
    exception) at an [acquire] whose [lock] call did not return; [release]
    and [locked] never stop it.  The calls before that [acquire] all
    returned, the guard is as they left it, and the calls after it are not
    made. *)
Theorem do_calls_stop_at_failed_acquire t cs this e l' e' :
  stopped_at (do_calls t cs (this, e)) (l', e') →
  ∃ cs1 cs2 e1,
    cs = cs1 ++ CallAcquire :: cs2
    ∧ do_calls t cs1 (this, e) = Done () (l', e1)
    ∧ l' = mkLock (_mutex this) (flag_after (_locked this) cs1)
    ∧ e' = mkEnv (heap e1) (calls e ++ events_of (_mutex this) cs1
                              ++ [EvLock (_mutex this)])
    ∧ (Mutex_lock t (_mutex this) (heap e1) = LockBlocks
       ∨ Mutex_lock t (_mutex this) (heap e1) = LockThrows).
Proof.
  intros (cs1 & cs2 & e1 & -> & Hrun & He' & Hfail)%do_calls_stopped_inv.
  simpl in *. exists cs1, cs2, e1.
  destruct (do_calls_done_inv _ _ _ _ _ _ Hrun) as [Hl' Hlog].
  split_and!; [done..| |done]. rewrite He', Hlog. by rewrite <-app_assoc.
Qed.

(** X4: under the caller contract (no [acquire] while held, no [release]
    while unheld) the flag counts the guard's outstanding [lock] call: over
    a sequence of calls that returns, the [lock] calls on the guard's mutex
    exceed the [unlock] calls by one exactly when the flag went from clear
    to set, and fall short by one exactly when it went from set to
    clear. *)
Theorem do_calls_balanced t cs this e l' e' :
  obeys (_locked this) cs = true →
  do_calls t cs (this, e) = Done () (l', e') →
  lock_count (_mutex this) (calls e') + unlock_count (_mutex this) (calls e)
    + (if _locked this then 1 else 0)
  = lock_count (_mutex this) (calls e) + unlock_count (_mutex this) (calls e')
    + (if _locked l' then 1 else 0).
Proof.
  intros Hob [-> Hlog]%do_calls_done_inv. simpl.
  rewrite Hlog, lock_count_app, unlock_count_app.
  pose proof (events_of_balance (_mutex this) _ _ Hob). lia.
Qed.

(** X5: a block whose body makes the calls [cs] under the caller contract
    and then falls through or returns leaves the log with exactly the
    constructor's [lock] (if auto-locking), the calls of [cs], and the
    destructor's [unlock] (if the guard ended held): by the closing brace
    every [lock] call on the mutex is matched by one [unlock] call. *)
Theorem block_balances_lock_and_unlock t m autoLock cs (c c' : completion) e e' :
  obeys autoLock cs = true →
  critical_section t m autoLock (do_calls t cs;; mret c) e = Done c' e' →
  c' = c
  ∧ calls e' = calls e ++ (if autoLock then [EvLock m] else [])
                 ++ events_of m cs
                 ++ (if flag_after autoLock cs then [EvUnlock m] else [])
  ∧ lock_count m (calls e') + unlock_count m (calls e)
    = lock_count m (calls e) + unlock_count m (calls e').
Proof.
  intros Hob. unfold critical_section.
  destruct (Lock_ctor t m autoLock e) as [[] [l1 e1] | [? ?] | [? ?] |] eqn:Hc;
    try done.
  assert (l1 = mkLock m autoLock
          ∧ calls e1 = calls e ++ (if autoLock then [EvLock m] else []))
    as [-> Hlog1].
  { rewrite Lock_ctor_eq in Hc. destruct autoLock.
    - rewrite acquire_eq in Hc. simpl in Hc.
      destruct (Mutex_lock t m (heap e)); try done. by simplify_eq.
    - simplify_eq. by rewrite app_nil_r. }
  unfold mbind, method_bind, comp_bind.
  destruct (do_calls t cs (mkLock m autoLock, e1))
    as [[] [l2 e2] | [? ?] | [l2 e2] |] eqn:Hb; simpl; try done.
  - apply do_calls_done_inv in Hb as [-> Hlog2]. simpl in Hlog2. simpl.
    destruct (Lock_dtor t (mkLock m (flag_after autoLock cs), e2))
      as [[] [l3 e3] | [? ?] | [? ?] |] eqn:Hd; simpl; try done.
    apply Lock_dtor_done_inv in Hd as [_ Hlog3]. simpl in Hlog3.
    intros [= <- <-].
    assert (calls e3 = calls e ++ (if autoLock then [EvLock m] else [])
                         ++ events_of m cs
                         ++ (if flag_after autoLock cs then [EvUnlock m] else []))
      as Hlog by (rewrite Hlog3, Hlog2, Hlog1; by rewrite <-!app_assoc).
    split_and!; [done..|].
    rewrite Hlog, !lock_count_app, !unlock_count_app.
    pose proof (events_of_balance m _ _ Hob) as Hbal.
    change (lock_count m []) with 0. change (unlock_count m []) with 0.
    destruct autoLock, (flag_after _ cs);
      rewrite ?lock_count_single, ?unlock_count_single; simpl;
      rewrite ?bool_decide_eq_true_2 by done; simpl in *;
      change (lock_count m []) with 0; change (unlock_count m []) with 0; lia.
  - destruct (Lock_dtor t (l2, e2)) as [[] [? ?] | [? ?] | [? ?] |]; done.
Qed.

(** X6: constructing the guard with [autoLock = false] and calling
    [acquire ()] first thing in the block is the same as constructing it
    auto-locking, whatever the primitive does and whatever the body does
    next: same result, same log, also when the [lock] call waits, throws
    or is not defined. *)
Theorem deferred_acquire_is_autoLock t m (body : method completion) e :
  critical_section t m false (acquire t;; body) e
  = critical_section t m true body e.
Proof.
  unfold critical_section. rewrite !Lock_ctor_eq.
  unfold mbind at 1, method_bind, comp_bind.
  rewrite acquire_eq. simpl.
  by destruct (Mutex_lock t m (heap e)).
Qed.

(** X7: after an explicit [release ()] the destructor makes no call:
    releasing and then leaving the scope is, on the guard, the store and
    the log, the same as releasing alone, whatever the flag was before. *)
Theorem release_then_dtor t this e :
  (release t;; Lock_dtor t) (this, e) = release t (this, e).
Proof.
  unfold mbind, method_bind, comp_bind. rewrite release_eq.
  by destruct (Mutex_unlock t (_mutex this) (heap e)).
Qed.
End guard_usage.

(** ** Call sequences at concrete inputs *)

Section usage_examples.
(** Thread 1 opens an auto-locking block on the fresh mutex 7, asks,
    releases and acquires again. *)
Lemma guard_calls_only_its_mutex_witness :
  let e' := mkEnv (Mutex_ctor 7 ∅) [EvLock 7; EvUnlock 7; EvLock 7; EvUnlock 7] in
  final_state (critical_section 1 7 true
                 (do_calls 1 [CallLocked; CallRelease; CallAcquire];; mret FallsThrough)
                 (env_with_mutex 7)) = Some e'
  ∧ logged_on 7 5 (env_with_mutex 7) e'.
Proof.
  intros e'.
  assert (final_state (critical_section 1 7 true
                 (do_calls 1 [CallLocked; CallRelease; CallAcquire];; mret FallsThrough)
                 (env_with_mutex 7)) = Some e') as Hf by reflexivity.
  split; [exact Hf|].
  exact (guard_calls_only_its_mutex 1 7 true
           [CallLocked; CallRelease; CallAcquire] FallsThrough _ _ Hf).
Defined.

(** Thread 1, holding mutex 7, releases, asks, and acquires again. *)
Lemma do_calls_flag_and_log_witness :
  let e' := mkEnv (heap (env_held_by 7 1)) [EvUnlock 7; EvLock 7] in
  do_calls 1 [CallRelease; CallLocked; CallAcquire] (mkLock 7 true, env_held_by 7 1)
    = Done () (mkLock 7 true, e')
  ∧ locked (mkLock 7 true, e') = Done true (mkLock 7 true, e')
  ∧ calls e' = [] ++ events_of 7 [CallRelease; CallLocked; CallAcquire].
Proof.
  intros e'.
  assert (do_calls 1 [CallRelease; CallLocked; CallAcquire]
            (mkLock 7 true, env_held_by 7 1) = Done () (mkLock 7 true, e'))
    as Hrun by reflexivity.
  split; [exact Hrun|].
  exact (proj2 (do_calls_flag_and_log 1 _ _ _ _ _ Hrun)).
Defined.

(** Thread 1 asks, then tries to acquire mutex 7 while thread 2 has it:
    the release that follows is never made. *)
Lemma do_calls_stop_at_failed_acquire_witness :
  let e' := mkEnv (heap (env_held_by 7 2)) [EvLock 7] in
  stopped_at (do_calls 1 [CallLocked; CallAcquire; CallRelease]
                (mkLock 7 false, env_held_by 7 2))
             (mkLock 7 false, e')
  ∧ ∃ cs1 cs2 e1,
      [CallLocked; CallAcquire; CallRelease] = cs1 ++ CallAcquire :: cs2
      ∧ do_calls 1 cs1 (mkLock 7 false, env_held_by 7 2)
          = Done () (mkLock 7 false, e1)
      ∧ mkLock 7 false = mkLock 7 (flag_after false cs1)
      ∧ e' = mkEnv (heap e1) ([] ++ events_of 7 cs1 ++ [EvLock 7])
      ∧ (Mutex_lock 1 7 (heap e1) = LockBlocks
         ∨ Mutex_lock 1 7 (heap e1) = LockThrows).
Proof.
  intros e'.
  assert (stopped_at (do_calls 1 [CallLocked; CallAcquire; CallRelease]
                        (mkLock 7 false, env_held_by 7 2))
                     (mkLock 7 false, e')) as Hstop by (left; reflexivity).
  split; [exact Hstop|].
  exact (do_calls_stop_at_failed_acquire 1 _ _ _ _ _ Hstop).
Defined.

(** Thread 1, holding mutex 7, releases, acquires and releases: two
    unlocks for one lock, the flag went from set to clear. *)
Lemma do_calls_balanced_witness :
  let e' := mkEnv (Mutex_ctor 7 ∅) [EvUnlock 7; EvLock 7; EvUnlock 7] in
  obeys true [CallRelease; CallAcquire; CallRelease] = true
  ∧ do_calls 1 [CallRelease; CallAcquire; CallRelease]
      (mkLock 7 true, env_held_by 7 1) = Done () (mkLock 7 false, e')
  ∧ lock_count 7 (calls e') + unlock_count 7 [] + 1
    = lock_count 7 [] + unlock_count 7 (calls e') + 0.
Proof.
  intros e'.
  assert (obeys true [CallRelease; CallAcquire; CallRelease] = true) as Hob
    by reflexivity.
  assert (do_calls 1 [CallRelease; CallAcquire; CallRelease]
            (mkLock 7 true, env_held_by 7 1) = Done () (mkLock 7 false, e'))
    as Hrun by reflexivity.
  split; [exact Hob|]. split; [exact Hrun|].
  exact (do_calls_balanced 1 _ (mkLock 7 true) _ _ _ Hob Hrun).
Defined.

(** Thread 1 opens a deferred block on mutex 7, acquires, and leaves by
    [return] with the guard still held. *)
Lemma block_balances_lock_and_unlock_witness :
  let e' := mkEnv (Mutex_ctor 7 ∅) [EvLock 7; EvUnlock 7] in
  obeys false [CallLocked; CallAcquire] = true
  ∧ critical_section 1 7 false
      (do_calls 1 [CallLocked; CallAcquire];; mret Returns) (env_with_mutex 7)
    = Done Returns e'
  ∧ calls e' = [] ++ [] ++ events_of 7 [CallLocked; CallAcquire] ++ [EvUnlock 7]
  ∧ lock_count 7 (calls e') + unlock_count 7 []
    = lock_count 7 [] + unlock_count 7 (calls e').
Proof.
  intros e'.
  assert (obeys false [CallLocked; CallAcquire] = true) as Hob by reflexivity.
  assert (critical_section 1 7 false
            (do_calls 1 [CallLocked; CallAcquire];; mret Returns) (env_with_mutex 7)
          = Done Returns e') as Hrun by reflexivity.
  split; [exact Hob|]. split; [exact Hrun|].
  exact (proj2 (block_balances_lock_and_unlock 1 7 false _ _ _ _ _ Hob Hrun)).
Defined.
End usage_examples.
